(** * connmgr.DynamicBanScore and txscript.SigCache

    A shallow embedding of the two defensive caches of the node: the
    decaying misbehaviour score of [connmgr/dynamicbanscore.go] and the
    signature-verification cache of package [txscript], together with the
    properties the design document states about them.

    Both types guard every method with a lock held for the whole body, so a
    call is atomic; the functions below describe one call as a function of
    the state it finds, and the locks themselves are not modelled. *)

From Stdlib Require Import ZArith Lia Bool List.
From Stdlib Require Import Floats.PrimFloat Floats.SpecFloat Floats.FloatOps
  Floats.FloatAxioms.
From stdpp Require Import base option gmap fin_maps.

Set Warnings "-inexact-float".
Local Open Scope Z_scope.

(** ** Machine integers

    Go's [uint32] and [int64] are modelled as [Z] with the wrap-around of
    their arithmetic written out. *)
Module Int.

Definition MaxUint32 : Z := 4294967295.

Definition wrap32 (z : Z) : Z := z mod 2 ^ 32.

Definition wrap64 (z : Z) : Z := (z + 2 ^ 63) mod 2 ^ 64 - 2 ^ 63.

(** [a + b] on [uint32]. *)
Definition add32 (a b : Z) : Z := wrap32 (a + b).

(** [a - b] on [int64]. *)
Definition sub64 (a b : Z) : Z := wrap64 (a - b).

Definition is_uint32 (z : Z) : Prop := 0 <= z <= MaxUint32.

Definition is_int64 (z : Z) : Prop := - 2 ^ 63 <= z < 2 ^ 63.

End Int.

(** ** float64

    Go's [float64] is IEEE 754 binary64, which is what the primitive
    floats of the kernel are. Every operation is rounded on its own (to
    nearest, ties to even), as on a platform that does not fuse a multiply
    with an add. Conversions from and to integers go through the integer
    specification of the format. *)
Module F64.

(** [float64(z)] for an integer [z]: the nearest binary64, ties to even. *)
Definition of_Z (z : Z) : float :=
  SF2Prim (binary_normalize prec emax z 0 false).

(** The integer part of a finite float (rounding toward zero); [None] for
    a NaN or an infinity. *)
Definition trunc (f : float) : option Z :=
  match Prim2SF f with
  | S754_zero _ => Some 0
  | S754_finite s m e =>
      let a := if (0 <=? e) then Z.shiftl (Z.pos m) e
               else Z.shiftr (Z.pos m) (- e) in
      Some (if s then - a else a)
  | S754_infinity _ => None
  | S754_nan => None
  end.

(** An untyped rational constant [num / den] converted to [float64]: the
    quotient is exact, the conversion rounds to nearest, ties to even. The
    quotient is cut after 128 fractional bits with a sticky bit below
    them. *)
Definition of_ratio (num den : Z) : float :=
  let q := (num * 2 ^ 128) / den in
  let sticky := if (num * 2 ^ 128) mod den =? 0 then 0 else 1 in
  SF2Prim (binary_normalize prec emax (2 * q + sticky) (- 129) false).

End F64.

(** ** The arithmetic of the format, on its integer specification

    What the rounding of the format does to a mantissa and an exponent,
    in terms of the integers involved. *)
Module F64Spec.

(** Exponents are offset by [K] so that the value of a mantissa and an
    exponent is an integer. *)
Definition K : Z := 2200.

Definition val (m e : Z) : Z := m * 2 ^ (e + K).

Definition dig (m : positive) : Z := Zpos (digits2_pos m).

Definition inexact (mrs : shr_record) : bool := shr_r mrs || shr_s mrs.

(** What [k] right shifts leave of [M]: the quotient, and a remainder that
    is not zero when a round or sticky bit is set. *)
Definition shifted (M : Z) (k : Z) (mrs : shr_record) : Prop :=
  0 <= shr_m mrs /\
  exists rest, M = shr_m mrs * 2 ^ k + rest /\ 0 <= rest < 2 ^ k /\
               (inexact mrs = true -> 0 < rest).

(** The float a rounded mantissa and exponent make. *)
Definition result (sx : bool) (m3 e3 : Z) : spec_float :=
  match m3 with
  | Z0 => S754_zero sx
  | Zpos m => if e3 <=? emax - prec then S754_finite sx m e3 else S754_infinity sx
  | Zneg _ => S754_nan
  end.

(** How [binary_round_aux] gets from an exact [M * 2^e] to its result: a
    right shift by [n1] to the exponent of the format, a rounding to the
    mantissa or its successor, the successor only when bits were lost, and
    a second right shift by [n2] should the rounding have carried. *)
Inductive rounding (M e m3 e3 : Z) : Prop :=
| Rounding (n1 m1 rest m2 n2 rest2 : Z)
    (r_n1_eq : n1 = Z.max 0 (fexp prec emax (Zdigits2 M + e) - e))
    (r_m1_nonneg : 0 <= m1)
    (r_M : M = m1 * 2 ^ n1 + rest)
    (r_rest_range : 0 <= rest < 2 ^ n1)
    (r_m2_range : m1 <= m2 <= m1 + 1)
    (r_m2_up : m2 = m1 + 1 -> 0 < rest)
    (r_n2_eq : n2 = Z.max 0 (fexp prec emax (Zdigits2 m2 + (e + n1)) - (e + n1)))
    (r_m3_nonneg : 0 <= m3)
    (r_m2_eq : m2 = m3 * 2 ^ n2 + rest2)
    (r_rest2_range : 0 <= rest2 < 2 ^ n2)
    (r_e3 : e3 = e + n1 + n2).

(** Zero or a positive finite number. *)
Definition fin_nonneg (x : spec_float) : Prop :=
  match x with
  | S754_zero _ => True
  | S754_finite false _ _ => True
  | _ => False
  end.

(** Zero or a finite number. *)
Definition fin (x : spec_float) : Prop :=
  match x with
  | S754_zero _ => True
  | S754_finite _ _ _ => True
  | _ => False
  end.

(** [1.0]. *)
Definition SFone : spec_float := S754_finite false 4503599627370496 (-52).

(** The integer part, on the specification of a float. *)
Definition SFtrunc (x : spec_float) : option Z :=
  match x with
  | S754_zero _ => Some 0
  | S754_finite s m e =>
      let a := if (0 <=? e) then Z.shiftl (Z.pos m) e
               else Z.shiftr (Z.pos m) (- e) in
      Some (if s then - a else a)
  | S754_infinity _ => None
  | S754_nan => None
  end.

Definition truncZ (m e : Z) : Z :=
  if 0 <=? e then Z.shiftl m e else Z.shiftr m (- e).

End F64Spec.

(** ** What the score takes from Go itself

    [math.Exp] belongs to Go's standard library and the result of
    [uint32(f)] for an [f] whose integer part is not a [uint32] is left to
    the implementation by the language. Neither is code of this package, so
    the score is parametric in both. *)
Class GoMath := {
  Exp : float -> float;
  uint32_unrepresentable : float -> Z
}.

(** [uint32(f)]: the fraction is discarded; a value outside the type
    yields whatever the platform yields, as a [uint32]. *)
Definition to_uint32 `{GoMath} (f : float) : Z :=
  match F64.trunc f with
  | Some z =>
      if (0 <=? z) && (z <=? Int.MaxUint32) then z
      else Int.wrap32 (uint32_unrepresentable f)
  | None => Int.wrap32 (uint32_unrepresentable f)
  end.

(** The portable implementation of [math.Exp] (Go's [math/exp.go], after
    FreeBSD's [e_exp.c]): argument reduction [x = k*ln2 + r] with
    [|r| <= ln2/2], a degree-5 rational approximation on [r], and a final
    scaling by [2^k] ([math.Ldexp]). It is the instance on which the test
    vectors of the package are evaluated; everything else holds for any
    [Exp]. *)
Module GoExp.
Local Open Scope float_scope.

Definition Ln2Hi : float := 6.93147180369123816490e-01.
Definition Ln2Lo : float := 1.90821492927058770002e-10.
Definition Log2e : float := 1.44269504088896338700e+00.
Definition Overflow : float := 7.09782712893383973096e+02.
Definition Underflow : float := -7.45133219101941108420e+02.
Definition NearZero : float := 0x1p-28.

Definition P1 : float := 1.66666666666666657415e-01.
Definition P2 : float := -2.77777777770155933842e-03.
Definition P3 : float := 6.61375632143793436117e-05.
Definition P4 : float := -1.65339022054652515390e-06.
Definition P5 : float := 4.13813679705723846039e-08.

(** [int(f)] for an [f] in range. *)
Definition to_int (f : float) : Z := default 0%Z (F64.trunc f).

Definition expmulti (hi lo : float) (k : Z) : float :=
  let r := hi - lo in
  let t := r * r in
  let c := r - t * (P1 + t * (P2 + t * (P3 + t * (P4 + t * P5)))) in
  let y := 1 - ((lo - (r * c) / (2 - c)) - hi) in
  Z.ldexp y k.

Definition exp (x : float) : float :=
  if is_nan x || (x =? infinity) then x
  else if x =? neg_infinity then 0
  else if Overflow <? x then infinity
  else if x <? Underflow then 0
  else if (- NearZero <? x) && (x <? NearZero) then 1 + x
  else
    let k := if x <? 0 then to_int (Log2e * x - 0.5)
             else if 0 <? x then to_int (Log2e * x + 0.5)
             else 0%Z in
    let hi := x - F64.of_Z k * Ln2Hi in
    let lo := F64.of_Z k * Ln2Lo in
    expmulti hi lo k.

End GoExp.

(** ** connmgr/dynamicbanscore.go *)
Module BanScore.

(** [Halflife]: seconds after which the transient part has decayed to one
    half. *)
Definition Halflife : Z := 60.

(** [math.Ln2 = 0.693147180559945309417232121458176568], as a fraction. *)
Definition Ln2_num : Z := 693147180559945309417232121458176568.
Definition Ln2_den : Z := 10 ^ 36.

(** [lambda = math.Ln2 / Halflife], an untyped constant: exact until it
    meets a [float64] operand. *)
Definition lambda : float := F64.of_ratio Ln2_num (Ln2_den * Halflife).

(** [Lifetime]: the maximum age in seconds of a transient part that still
    counts. *)
Definition Lifetime : Z := 1800.

Definition precomputedLen : Z := 64.

Record DynamicBanScore := {
  lastUnix : Z;
  transient : float;
  persistent : Z
}.

(** The zero value, ready for use. *)
Definition zero : DynamicBanScore :=
  {| lastUnix := 0; transient := 0%float; persistent := 0 |}.

(** [a[i]] on an array indexed by an [int64]: out of range panics. *)
Definition index {A} (a : list A) (i : Z) : option A :=
  if i <? 0 then None else a !! Z.to_nat i.

Section WithGo.
Context `{GoMath}.

(** The table [init] fills: one factor per second from [t = 0]. *)
Definition precomputedFactor : list float :=
  (fun i => Exp ((-1.0) * F64.of_Z i * lambda)%float) <$> seqZ 0 precomputedLen.

Definition decayFactor (t : Z) : option float :=
  if t <? precomputedLen then index precomputedFactor t
  else Some (Exp ((-1.0) * F64.of_Z t * lambda)%float).

(** The single formula of the design document for the decay after [t]
    seconds, [exp(-t * ln2 / H)], in the arithmetic of the program. *)
Definition decay (t : Z) : float :=
  Exp ((-1.0) * F64.of_Z t * lambda)%float.

(** [s.int(t)], with [t] given as [t.Unix()]. *)
Definition int (s : DynamicBanScore) (t : Z) : option Z :=
  let dt := Int.sub64 t (lastUnix s) in
  if (transient s <? 1)%float || (dt <? 0) || (Lifetime <? dt)
  then Some (persistent s)
  else
    d ← decayFactor dt;
    Some (Int.add32 (persistent s) (to_uint32 (transient s * d)%float)).

(** [s.increase(persistent, transient, t)]: the returned score and the
    state the call leaves. *)
Definition increase (persistentDelta transientDelta : Z) (t : Z)
    (s : DynamicBanScore) : option (Z * DynamicBanScore) :=
  let p := Int.add32 (persistent s) persistentDelta in
  let tu := t in
  let dt := Int.sub64 tu (lastUnix s) in
  s' ← (if 0 <? transientDelta then
          tr ← (if Lifetime <? dt then Some 0%float
                else if (1 <? transient s)%float && (0 <? dt)
                     then d ← decayFactor dt; Some (transient s * d)%float
                     else Some (transient s));
          Some {| lastUnix := tu;
                  transient := (tr + F64.of_Z transientDelta)%float;
                  persistent := p |}
        else
          Some {| lastUnix := lastUnix s;
                  transient := transient s;
                  persistent := p |});
  Some (Int.add32 (persistent s') (to_uint32 (transient s')), s').

End WithGo.

(** [s.Reset()]. *)
Definition Reset (s : DynamicBanScore) : DynamicBanScore :=
  {| lastUnix := 0; transient := 0%float; persistent := 0 |}.

(** A history: the arguments [(persistent, transient, t)] of successive
    [increase] calls, oldest first. *)
Definition history : Type := list (Z * Z * Z).

Fixpoint replay `{GoMath} (calls : history) (s : DynamicBanScore) :
    option DynamicBanScore :=
  match calls with
  | [] => Some s
  | (pd, td, t) :: rest =>
      match increase pd td t s with
      | Some (_, s') => replay rest s'
      | None => None
      end
  end.

End BanScore.

(** The portable [math.Exp], on a platform whose out-of-range conversions
    yield [unrep]. *)
Definition go_portable (unrep : float -> Z) : GoMath :=
  {| Exp := GoExp.exp; uint32_unrepresentable := unrep |}.

(** ** Package txscript: the signature cache *)
Module SigCache.

Section WithTypes.
(** [chainhash.Hash], [btcec.Signature] and [btcec.PublicKey] are declared
    by other packages; the cache only stores them, uses the hash as a map
    key and compares the other two. *)
Context {Hash : Type} `{Countable Hash}.
Context {Signature : Type} `{EqDecision Signature}.
Context {PublicKey : Type} `{EqDecision PublicKey}.

(** Modelled from the spec: [IsEqual] of [btcec.Signature] and of
    [btcec.PublicKey], whose code is in package [btcec]; the design
    document has it compare "for full equality". *)
Definition IsEqual {A} `{EqDecision A} (a b : A) : bool := bool_decide (a = b).

Record sigCacheEntry := {
  sig : Signature;
  pubKey : PublicKey
}.

(** [maxEntries] is a [uint]; the only arithmetic near it is [len + 1] on
    the length of a map, which cannot wrap. *)
Record SigCache := {
  validSigs : gmap Hash sigCacheEntry;
  maxEntries : N
}.

Definition NewSigCache (maxEntries : N) : SigCache :=
  {| validSigs := ∅; maxEntries := maxEntries |}.

Definition Exists (s : SigCache) (sigHash : Hash) (sig0 : Signature)
    (pubKey0 : PublicKey) : bool :=
  match validSigs s !! sigHash with
  | Some entry => IsEqual (pubKey entry) pubKey0 && IsEqual (sig entry) sig0
  | None => false
  end.

(** The key a [range] over the map yields first. Go leaves the order
    open: it is some resident key, and there is none when the map is
    empty. *)
Definition range_first (m : gmap Hash sigCacheEntry) (first : option Hash) : Prop :=
  match first with
  | Some k => is_Some (m !! k)
  | None => m = ∅
  end.

(** [for sigEntry := range m { delete(m, sigEntry); break }]. *)
Definition evict (first : option Hash) (m : gmap Hash sigCacheEntry) :
    gmap Hash sigCacheEntry :=
  match first with
  | Some k => delete k m
  | None => m
  end.

(** Whether adding one entry puts the map over the maximum. *)
Definition over_max (s : SigCache) : bool :=
  (maxEntries s <? N.of_nat (size (validSigs s) + 1))%N.

(** [s.Add(sigHash, sig, pubKey)], where [first] is the key the eviction
    loop would meet first. *)
Definition Add (first : option Hash) (s : SigCache) (sigHash : Hash)
    (sig0 : Signature) (pubKey0 : PublicKey) : SigCache :=
  if (maxEntries s <=? 0)%N then s
  else
    let m := if over_max s then evict first (validSigs s) else validSigs s in
    {| validSigs := <[sigHash := {| sig := sig0; pubKey := pubKey0 |}]> m;
       maxEntries := maxEntries s |}.

(** The caches a sequence of [Add] calls produces from [NewSigCache n];
    [Exists] changes nothing. *)
Inductive reachable (n : N) : SigCache -> Prop :=
| reach_new : reachable n (NewSigCache n)
| reach_add s first sigHash sig0 pubKey0 :
    reachable n s ->
    range_first (validSigs s) first ->
    reachable n (Add first s sigHash sig0 pubKey0).

End WithTypes.

Arguments sigCacheEntry : clear implicits.
Arguments SigCache Hash {_ _} Signature PublicKey.

End SigCache.

(** Concrete caches: digests as numbers, signatures as pairs [(R, S)] and
    public keys as pairs [(X, Y)] of integers. *)
Module SigCacheData.
Import SigCache.

Definition cache0 : SigCache N (Z * Z) (Z * Z) := NewSigCache 0.
Definition cache1 : SigCache N (Z * Z) (Z * Z) := NewSigCache 1.

(** [cache1] after one [Add]: full. *)
Definition cache1_full : SigCache N (Z * Z) (Z * Z) :=
  Add None cache1 7%N (1, 2) (3, 4).

End SigCacheData.

(** ** The exported methods of the score and its mutex

    [Int], [Increase], [Reset] and [String] take [s.mtx] around their body.
    The mutex is unexported and every [Unlock] of the package follows a
    [Lock] in the same method, so a goroutine that finds the mutex held by
    itself waits for ever. A call is followed here from the goroutine that
    makes it; [now] is what [time.Now().Unix()] reads. *)
Module Guarded.
Import BanScore.

Record GuardedScore := {
  score : DynamicBanScore;
  held : bool
}.

(** How a call ends: it returns, it is left waiting on [Lock], or the
    program crashes (a run-time panic, or the fatal error of unlocking a
    mutex that is not locked). *)
Inductive outcome (A : Type) : Type :=
| Returns (a : A) (g : GuardedScore)
| Blocks
| Crashes (g : GuardedScore).

Arguments Returns {A} a g.
Arguments Blocks {A}.
Arguments Crashes {A} g.

Definition bind {A B} (m : outcome A) (k : A -> GuardedScore -> outcome B) :
    outcome B :=
  match m with
  | Returns a g => k a g
  | Blocks => Blocks
  | Crashes g => Crashes g
  end.

(** [s.mtx.Lock()]. *)
Definition Lock (g : GuardedScore) : outcome unit :=
  if held g then Blocks
  else Returns tt {| score := score g; held := true |}.

(** [s.mtx.Unlock()]. *)
Definition Unlock (g : GuardedScore) : outcome unit :=
  if held g then Returns tt {| score := score g; held := false |}
  else Crashes g.

Section WithGo.
Context `{GoMath}.

(** [s.Int()]. *)
Definition Int (now : Z) (g : GuardedScore) : outcome Z :=
  bind (Lock g) (fun _ g1 =>
    match int (score g1) now with
    | Some r => bind (Unlock g1) (fun _ g2 => Returns r g2)
    | None => Crashes g1
    end).

(** [s.Increase(persistent, transient)]. *)
Definition Increase (persistentDelta transientDelta : Z) (now : Z)
    (g : GuardedScore) : outcome Z :=
  bind (Lock g) (fun _ g1 =>
    match increase persistentDelta transientDelta now (score g1) with
    | Some (r, s') =>
        bind (Unlock {| score := s'; held := held g1 |})
             (fun _ g2 => Returns r g2)
    | None => Crashes g1
    end).

(** [s.Reset()]. *)
Definition Reset (g : GuardedScore) : outcome unit :=
  bind (Lock g) (fun _ g1 =>
    bind (Unlock {| score := BanScore.Reset (score g1); held := held g1 |})
         (fun _ g2 => Returns tt g2)).

(** [s.String()]; [Sprintf] stands for [fmt.Sprintf] with the format of the
    method, applied to [s.persistent], [s.transient], [s.lastUnix] and
    [s.Int()]. The arguments are evaluated before [fmt.Sprintf] is
    called. *)
Definition String {Str : Type} (Sprintf : Z -> float -> Z -> Z -> Str)
    (now : Z) (g : GuardedScore) : outcome Str :=
  bind (Lock g) (fun _ g1 =>
    bind (Int now g1) (fun v g2 =>
      let r := Sprintf (persistent (score g2)) (transient (score g2))
                 (lastUnix (score g2)) v in
      bind (Unlock g2) (fun _ g3 => Returns r g3))).

End WithGo.
End Guarded.

(** The sum of the persistent deltas of a history. *)
Definition persistent_total (calls : BanScore.history) : Z :=
  foldr (fun c acc => c.1.1 + acc) 0 calls.

(** ** Runs of the signature cache *)
Module SigCacheRuns.
Import SigCache.

Section WithTypes.
Context {Hash : Type} `{Countable Hash}.
Context {Signature : Type} `{EqDecision Signature}.
Context {PublicKey : Type} `{EqDecision PublicKey}.

(** One [Add] call: the key the eviction loop would meet first, and the
    three arguments. *)
Record call := {
  call_first : option Hash;
  call_sigHash : Hash;
  call_sig : Signature;
  call_pubKey : PublicKey
}.

Definition Add_call (s : SigCache Hash Signature PublicKey) (c : call) :
    SigCache Hash Signature PublicKey :=
  Add (call_first c) s (call_sigHash c) (call_sig c) (call_pubKey c).

(** The cache after the calls, oldest first. *)
Definition run (calls : list call) (s : SigCache Hash Signature PublicKey) :
    SigCache Hash Signature PublicKey :=
  fold_left Add_call calls s.

End WithTypes.

Arguments call : clear implicits.

End SigCacheRuns.

(** A cache of capacity 2 filled by two calls. *)
Module SigCacheRunsData.
Import SigCache SigCacheRuns.

Definition call7 : call N (Z * Z) (Z * Z) :=
  {| call_first := None; call_sigHash := 7%N;
     call_sig := (1, 2); call_pubKey := (3, 4) |}.

Definition call9 : call N (Z * Z) (Z * Z) :=
  {| call_first := None; call_sigHash := 9%N;
     call_sig := (5, 6); call_pubKey := (3, 4) |}.

Definition cache2_full : SigCache N (Z * Z) (Z * Z) :=
  run [call7; call9] (NewSigCache 2).

End SigCacheRunsData.

(** ** Properties of float64 arithmetic

    Rounding to nearest keeps the order: a sum with a non-negative number
    is not below its first operand, a product with a factor between 0 and
    1 is not above it, and the integer part is monotone. *)
Module F64Facts.
Import F64Spec.

Lemma dig_pos m : 1 <= dig m.
Proof. unfold dig. lia. Qed.

Lemma dig_bounds m : 2 ^ (dig m - 1) <= Zpos m < 2 ^ dig m.
Proof.
  unfold dig. induction m as [m IH | m IH |]; cbn [digits2_pos].
  - rewrite Pos2Z.inj_succ.
    replace (Z.succ (Zpos (digits2_pos m)) - 1) with (Z.succ (Zpos (digits2_pos m) - 1)) by lia.
    rewrite !Z.pow_succ_r by lia. lia.
  - rewrite Pos2Z.inj_succ.
    replace (Z.succ (Zpos (digits2_pos m)) - 1) with (Z.succ (Zpos (digits2_pos m) - 1)) by lia.
    rewrite !Z.pow_succ_r by lia. lia.
  - cbn. lia.
Qed.

Lemma pow2_pos n : 0 <= n -> 0 < 2 ^ n.
Proof. intros. apply Z.pow_pos_nonneg; lia. Qed.

Lemma pow2_le a b : 0 <= a <= b -> 2 ^ a <= 2 ^ b.
Proof. intros. apply Z.pow_le_mono_r; lia. Qed.

Lemma pow2_lt_inv a b : 0 <= b -> 2 ^ a < 2 ^ b -> a < b.
Proof.
  intros Hb Hlt. destruct (Z_lt_le_dec a b) as [|Hge]; [assumption |].
  assert (2 ^ b <= 2 ^ a) by (apply pow2_le; lia). lia.
Qed.

Lemma pow2_split a b : 0 <= a -> 0 <= b -> 2 ^ (a + b) = 2 ^ a * 2 ^ b.
Proof. intros. apply Z.pow_add_r; lia. Qed.

Lemma val_shift m e n : 0 <= e + K -> 0 <= n -> val (m * 2 ^ n) e = val m (e + n).
Proof.
  intros He Hn. unfold val.
  replace (e + n + K) with (n + (e + K)) by lia.
  rewrite (pow2_split n (e + K)) by lia. ring.
Qed.

Lemma val_le m1 m2 e : 0 <= e + K -> m1 <= m2 -> val m1 e <= val m2 e.
Proof.
  intros He Hm. unfold val. pose proof (pow2_pos (e + K) He). nia.
Qed.

Lemma val_le_inv m1 m2 e : 0 <= e + K -> val m1 e <= val m2 e -> m1 <= m2.
Proof.
  intros He Hm. unfold val in Hm. pose proof (pow2_pos (e + K) He). nia.
Qed.

(** Magnitude bounds of a positive value. *)
Lemma val_bounds m e :
  0 <= e + K ->
  2 ^ (dig m - 1 + e + K) <= val (Zpos m) e < 2 ^ (dig m + e + K).
Proof.
  intros He. unfold val. pose proof (dig_bounds m) as [Hlo Hhi].
  pose proof (dig_pos m). pose proof (pow2_pos (e + K) He).
  replace (dig m - 1 + e + K) with ((dig m - 1) + (e + K)) by lia.
  replace (dig m + e + K) with (dig m + (e + K)) by lia.
  rewrite (pow2_split (dig m - 1) (e + K)), (pow2_split (dig m) (e + K)) by lia.
  nia.
Qed.

Lemma val_mag_le m1 e1 m2 e2 :
  0 <= e1 + K -> 0 <= e2 + K ->
  val (Zpos m1) e1 <= val (Zpos m2) e2 ->
  dig m1 + e1 <= dig m2 + e2.
Proof.
  intros H1 H2 Hle.
  pose proof (val_bounds m1 e1 H1) as [Hlo _].
  pose proof (val_bounds m2 e2 H2) as [_ Hhi].
  pose proof (dig_pos m1). pose proof (dig_pos m2).
  assert (dig m1 - 1 + e1 + K < dig m2 + e2 + K).
  { apply pow2_lt_inv; lia. }
  lia.
Qed.

(** [iter_pos] applies its function the stated number of times. *)
Lemma iter_pos_inv {A} (f : A -> A) (P : Z -> A -> Prop) :
  (forall k x, 0 <= k -> P k x -> P (k + 1) (f x)) ->
  forall p k x, 0 <= k -> P k x -> P (k + Zpos p) (SpecFloat.iter_pos f p x).
Proof.
  intros Hstep. induction p as [p IH | p IH |]; intros k x Hk HP; cbn [SpecFloat.iter_pos].
  - replace (k + Zpos p~1) with (k + 1 + Zpos p + Zpos p) by lia.
    apply IH; [lia |]. apply IH; [lia |]. now apply Hstep.
  - replace (k + Zpos p~0) with (k + Zpos p + Zpos p) by lia.
    apply IH; [lia |]. now apply IH.
  - now apply Hstep.
Qed.

Lemma shr_1_shifted M k mrs :
  0 <= k -> shifted M k mrs -> shifted M (k + 1) (shr_1 mrs).
Proof.
  intros Hk [Hm (rest & HM & Hrest & Hin)].
  destruct mrs as [m r s]. unfold shifted, inexact in *.
  cbn [shr_m shr_r shr_s] in *.
  pose proof (pow2_pos k Hk) as Hp.
  assert (H2 : 2 ^ (k + 1) = 2 * 2 ^ k).
  { rewrite Z.pow_add_r by lia. change (2 ^ 1) with 2. lia. }
  rewrite H2.
  destruct m as [| [p | p |] | p]; cbn [shr_1 shr_m shr_r shr_s]; try lia.
  - split; [lia |]. exists rest. split; [lia |]. split; [lia |].
    cbn [orb]. exact Hin.
  - split; [lia |]. exists (2 ^ k + rest). split; [lia |]. split; [lia |]. lia.
  - split; [lia |]. exists rest. split; [lia |]. split; [lia |].
    cbn [orb]. exact Hin.
  - split; [lia |]. exists (2 ^ k + rest). split; [lia |]. split; [lia |]. lia.
Qed.

Lemma shr_shifted M p :
  0 <= M -> shifted M (Zpos p) (SpecFloat.iter_pos shr_1 p (Build_shr_record M false false)).
Proof.
  intros HM.
  apply (iter_pos_inv shr_1 (shifted M) (shr_1_shifted M) p 0); [lia |].
  split; [exact HM |]. exists 0. cbn. split; [lia |]. split; [lia |]. discriminate.
Qed.

Lemma fexp_eq e : fexp prec emax e = Z.max (e - 53) (-1074).
Proof. reflexivity. Qed.

Lemma Zdigits2_pos p : Zdigits2 (Zpos p) = dig p.
Proof. reflexivity. Qed.

Lemma shifted_0 M : 0 <= M -> shifted M 0 (Build_shr_record M false false).
Proof.
  intros HM. split; [exact HM |]. exists 0. cbn [shr_m].
  change (2 ^ 0) with 1. split; [lia |]. split; [lia |]. discriminate.
Qed.

(** [shr_fexp] on an exact, non-negative mantissa. *)
Lemma shr_fexp_spec M e :
  0 <= M ->
  exists mrs e',
    shr_fexp prec emax M e loc_Exact = (mrs, e') /\
    e' = e + Z.max 0 (fexp prec emax (Zdigits2 M + e) - e) /\
    shifted M (Z.max 0 (fexp prec emax (Zdigits2 M + e) - e)) mrs.
Proof.
  intros HM. unfold shr_fexp, shr. cbn [shr_record_of_loc].
  destruct (fexp prec emax (Zdigits2 M + e) - e) as [| p | p] eqn:Hn.
  - eexists _, _. split; [reflexivity |].
    replace (Z.max 0 0) with 0 by lia. split; [lia |]. now apply shifted_0.
  - eexists _, _. split; [reflexivity |].
    replace (Z.max 0 (Zpos p)) with (Zpos p) by lia. split; [lia |].
    now apply shr_shifted.
  - eexists _, _. split; [reflexivity |].
    replace (Z.max 0 (Zneg p)) with 0 by lia. split; [lia |]. now apply shifted_0.
Qed.

Lemma round_nearest_even_bounds mrs :
  let m := round_nearest_even (shr_m mrs) (loc_of_shr_record mrs) in
  shr_m mrs <= m <= shr_m mrs + 1 /\
  (m = shr_m mrs + 1 -> inexact mrs = true).
Proof.
  destruct mrs as [m [|] [|]]; unfold inexact; cbn;
    try destruct (Z.even m); split; try lia; intros; reflexivity || lia.
Qed.

Lemma binary_round_aux_spec sx M e :
  0 <= M ->
  exists m3 e3,
    binary_round_aux prec emax sx M e loc_Exact = result sx m3 e3 /\
    rounding M e m3 e3.
Proof.
  intros HM. unfold binary_round_aux.
  destruct (shr_fexp_spec M e HM) as (mrs1 & e1 & Hs1 & He1 & [Hm1 (rest & HMeq & Hrest & Hin)]).
  rewrite Hs1.
  pose proof (round_nearest_even_bounds mrs1) as [Hrne Hup]. cbn zeta in Hrne, Hup.
  set (m2 := round_nearest_even (shr_m mrs1) (loc_of_shr_record mrs1)) in *.
  assert (Hm2 : 0 <= m2) by lia.
  destruct (shr_fexp_spec m2 e1 Hm2) as (mrs2 & e2 & Hs2 & He2 & [Hm3 (rest2 & Hm2eq & Hrest2 & _)]).
  rewrite Hs2.
  exists (shr_m mrs2), e2. split; [reflexivity |].
  subst e1.
  eapply (Rounding M e (shr_m mrs2) e2
            (Z.max 0 (fexp prec emax (Zdigits2 M + e) - e))
            (shr_m mrs1) rest m2 _ rest2);
    try reflexivity; try eassumption.
  intros Heq. apply Hin, Hup, Heq.
Qed.

Lemma bounded_spec m e :
  bounded prec emax m e = true ->
  e = Z.max (dig m + e - 53) (-1074) /\ e <= 971.
Proof.
  unfold bounded, canonical_mantissa. rewrite andb_true_iff, Z.eqb_eq, Z.leb_le.
  rewrite fexp_eq. fold (dig m). change (emax - prec) with 971. lia.
Qed.

Lemma SFleb_finite m1 e1 m2 e2 :
  SFleb (S754_finite false m1 e1) (S754_finite false m2 e2) = true <->
  e1 < e2 \/ (e1 = e2 /\ Zpos m1 <= Zpos m2).
Proof.
  unfold SFleb, SFcompare.
  destruct (Z.compare_spec e1 e2) as [He | He | He].
  - change (Pos.compare_cont Eq m1 m2) with (Pos.compare m1 m2).
    destruct (Pos.compare_spec m1 m2) as [Hm | Hm | Hm]; split; intros; try lia;
      try discriminate; try reflexivity.
  - split; intros; [lia | reflexivity].
  - split; intros; [discriminate | lia].
Qed.

(** A quotient keeps the leading bits. *)
Lemma shift_lower m n rest M d :
  0 <= n -> 0 <= d ->
  M = m * 2 ^ n + rest -> 0 <= rest < 2 ^ n ->
  2 ^ (d + n) <= M -> 2 ^ d <= m.
Proof.
  intros Hn Hd HM Hrest Hlow.
  rewrite pow2_split in Hlow by lia.
  pose proof (pow2_pos n Hn). pose proof (pow2_pos d Hd). nia.
Qed.

Lemma cancel_quotient x m A rest M :
  0 < A -> M = m * A + rest -> 0 <= rest < A -> x * A <= M -> x <= m.
Proof. intros. nia. Qed.

(** Rounding an exact value does not go below a float of the format that
    is below the value. *)
Lemma rounding_ge Mp e mx ex m3 e3 :
  0 <= e + K ->
  bounded prec emax mx ex = true ->
  val (Zpos mx) ex <= val (Zpos Mp) e ->
  rounding (Zpos Mp) e m3 e3 ->
  SFleb (S754_finite false mx ex) (result false m3 e3) = true.
Proof.
  intros He Hb Hval [n1 m1 rest m2 n2 rest2 Hn1 Hm1 HM Hrest Hm2 _ Hn2 Hm3 Hm2eq Hrest2 He3].
  apply bounded_spec in Hb as [Hcan Hex].
  rewrite Zdigits2_pos, fexp_eq in Hn1.
  assert (HexK : 0 <= ex + K) by (unfold K; lia).
  pose proof (val_mag_le mx ex Mp e HexK He Hval) as Hmag.
  pose proof (dig_bounds Mp) as [HMlo HMhi].
  pose proof (dig_bounds mx) as [Hxlo Hxhi].
  pose proof (dig_pos Mp). pose proof (dig_pos mx).
  assert (Hn1nn : 0 <= n1) by lia.
  pose proof (pow2_pos n1 Hn1nn) as Hp1.
  (* the first shift keeps a positive mantissa that is not below [mx] *)
  assert (H1 : 0 < m1 /\ (ex < e + n1 \/ (ex = e + n1 /\ Zpos mx <= m1))).
  { destruct (Z.eq_dec n1 0) as [Hz | Hnz].
    - rewrite Hz in *. change (2 ^ 0) with 1 in *.
      assert (m1 = Zpos Mp) by lia. subst m1. split; [lia |].
      destruct (Z_lt_le_dec ex e) as [| Hge]; [left; lia |].
      right. assert (ex = e) by lia. subst ex. split; [lia |].
      now apply (val_le_inv _ _ e He).
    - destruct (Z_lt_le_dec ex (e + n1)) as [Hlt | Hge].
      + assert (Hn1' : n1 = dig Mp - 53) by lia.
        assert (2 ^ 52 <= m1).
        { apply (shift_lower m1 n1 rest (Zpos Mp) 52); try lia.
          replace (52 + n1) with (dig Mp - 1) by lia. exact HMlo. }
        split; [lia |]. left. exact Hlt.
      + assert (Heq : ex = e + n1) by lia.
        assert (Hle : Zpos mx <= m1).
        { unfold val in Hval. rewrite Heq in Hval.
          replace (e + n1 + K) with (n1 + (e + K)) in Hval by lia.
          rewrite (pow2_split n1 (e + K)) in Hval by lia.
          pose proof (pow2_pos (e + K) He) as HpK.
          rewrite Z.mul_assoc in Hval.
          apply Z.mul_le_mono_pos_r in Hval; [| exact HpK].
          apply (cancel_quotient _ _ _ _ _ Hp1 HM Hrest Hval). }
        split; [lia |]. right. split; assumption. }
  destruct H1 as [Hm1pos Hcmp].
  assert (Hm2pos : 0 < m2) by lia.
  destruct m2 as [| p2 | p2]; try lia.
  rewrite Zdigits2_pos, fexp_eq in Hn2.
  pose proof (dig_bounds p2) as [H2lo H2hi]. pose proof (dig_pos p2).
  assert (Hn2nn : 0 <= n2) by lia.
  pose proof (pow2_pos n2 Hn2nn) as Hp2.
  assert (H3 : 0 < m3 /\ (ex < e3 \/ (ex = e3 /\ Zpos mx <= m3))).
  { destruct (Z.eq_dec n2 0) as [Hz | Hnz].
    - rewrite Hz in *. change (2 ^ 0) with 1 in *.
      assert (m3 = Zpos p2) by lia. subst m3. split; [lia |].
      destruct Hcmp as [Hlt | [Heq Hle]]; [left; lia | right; split; lia].
    - assert (Hn2' : n2 = dig p2 - 53) by lia.
      assert (2 ^ 52 <= m3).
      { apply (shift_lower m3 n2 rest2 (Zpos p2) 52); try lia.
        replace (52 + n2) with (dig p2 - 1) by lia. exact H2lo. }
      split; [lia |]. left. lia. }
  destruct H3 as [Hm3pos Hcmp3].
  destruct m3 as [| p3 | p3]; try lia.
  unfold result. destruct (e3 <=? emax - prec); [| reflexivity].
  apply SFleb_finite. exact Hcmp3.
Qed.

Lemma quotient_le x m A rest M :
  0 < A -> M = m * A + rest -> 0 <= rest < A -> M <= x * A ->
  m <= x /\ (0 < rest -> m + 1 <= x).
Proof. intros. split; [nia |]. intros. nia. Qed.

(** Rounding an exact value, held at or below the exponent of the format,
    does not go above a float of the format that is above the value. *)
Lemma rounding_le Mp e mx ex m3 e3 :
  0 <= e + K ->
  e <= fexp prec emax (dig Mp + e) ->
  bounded prec emax mx ex = true ->
  val (Zpos Mp) e <= val (Zpos mx) ex ->
  rounding (Zpos Mp) e m3 e3 ->
  SFleb (result false m3 e3) (S754_finite false mx ex) = true.
Proof.
  intros He Hfe Hb Hval [n1 m1 rest m2 n2 rest2 Hn1 Hm1 HM Hrest Hm2 Hup Hn2 Hm3 Hm2eq Hrest2 He3].
  apply bounded_spec in Hb as [Hcan Hex].
  rewrite Zdigits2_pos, fexp_eq in Hn1. rewrite fexp_eq in Hfe.
  assert (HexK : 0 <= ex + K) by (unfold K; lia).
  pose proof (val_mag_le Mp e mx ex He HexK Hval) as Hmag.
  pose proof (dig_pos Mp). pose proof (dig_pos mx).
  assert (Hn1nn : 0 <= n1) by lia.
  pose proof (pow2_pos n1 Hn1nn) as Hp1.
  assert (He1 : e + n1 <= ex) by lia.
  set (e1 := e + n1) in *.
  assert (Hd : 0 <= ex - e1) by lia.
  pose proof (pow2_pos (ex - e1) Hd) as Hpd.
  pose proof (pow2_pos (e + K) He) as HpK.
  (* [mx] at the exponent [e1] *)
  set (X := Zpos mx * 2 ^ (ex - e1)).
  assert (HX : val (Zpos mx) ex = X * 2 ^ n1 * 2 ^ (e + K)).
  { unfold val, X. replace (ex + K) with ((ex - e1) + (n1 + (e + K))) by lia.
    rewrite (pow2_split (ex - e1) (n1 + (e + K))) by lia.
    rewrite (pow2_split n1 (e + K)) by lia. ring. }
  assert (HMX : Zpos Mp <= X * 2 ^ n1).
  { unfold val in Hval at 1. rewrite HX in Hval.
    apply Z.mul_le_mono_pos_r in Hval; [exact Hval | exact HpK]. }
  destruct (quotient_le X m1 (2 ^ n1) rest (Zpos Mp) Hp1 HM Hrest HMX) as [Hm1X Hm1X'].
  assert (Hm2X : m2 <= X).
  { destruct (Z.eq_dec m2 (m1 + 1)) as [Heq | Hne]; [| lia].
    rewrite Heq. apply Hm1X'. now apply Hup. }
  destruct m3 as [| p3 | p3]; [reflexivity | | lia].
  assert (Hn2nn : 0 <= n2) by lia.
  pose proof (pow2_pos n2 Hn2nn) as Hp2.
  assert (Hm2pos : 0 < m2) by nia.
  destruct m2 as [| p2 | p2]; try lia.
  rewrite Zdigits2_pos, fexp_eq in Hn2. fold e1 in Hn2.
  pose proof (dig_pos p2).
  assert (He1K : 0 <= e1 + K) by lia.
  assert (Hval2 : val (Zpos p2) e1 <= val (Zpos mx) ex).
  { transitivity (val X e1); [now apply val_le |].
    unfold X. rewrite val_shift by lia. replace (e1 + (ex - e1)) with ex by lia. lia. }
  pose proof (val_mag_le p2 e1 mx ex He1K HexK Hval2) as Hmag2.
  assert (He3ex : e3 <= ex) by lia.
  unfold result. change (emax - prec) with 971.
  destruct (Z.leb_spec e3 971) as [_ | Hc]; [| lia].
  apply SFleb_finite.
  destruct (Z_lt_le_dec e3 ex) as [Hlt | Hge]; [left; exact Hlt |].
  right. split; [lia |].
  assert (Hn2' : n2 = ex - e1) by lia.
  unfold X in Hm2X. rewrite <- Hn2' in Hm2X.
  clear - Hm2X Hm2eq Hrest2 Hp2. nia.
Qed.

Lemma Pos_iter_xO m d : Zpos (Pos.iter xO m d) = Zpos m * 2 ^ Zpos d.
Proof.
  induction d as [| d IH] using Pos.peano_ind.
  - cbn. lia.
  - rewrite Pos.iter_succ, Pos2Z.inj_succ, Z.pow_succ_r by lia.
    rewrite Pos2Z.inj_xO, IH. ring.
Qed.

Lemma shl_align_spec mx ex ex' :
  snd (shl_align mx ex ex') = Z.min ex ex' /\
  Zpos (fst (shl_align mx ex ex')) = Zpos mx * 2 ^ (ex - Z.min ex ex').
Proof.
  unfold shl_align. destruct (ex' - ex) as [| d | d] eqn:Hd; cbn [fst snd].
  - replace (Z.min ex ex') with ex by lia. rewrite Z.sub_diag. cbn. lia.
  - replace (Z.min ex ex') with ex by lia. rewrite Z.sub_diag. cbn. lia.
  - replace (Z.min ex ex') with ex' by lia. split; [reflexivity |].
    rewrite Pos_iter_xO. f_equal. f_equal. lia.
Qed.

Lemma binary_round_ge Mp e mx ex :
  -1074 <= e ->
  bounded prec emax mx ex = true ->
  val (Zpos mx) ex <= val (Zpos Mp) e ->
  SFleb (S754_finite false mx ex) (binary_round prec emax false Mp e) = true.
Proof.
  intros He Hb Hval. unfold binary_round.
  pose proof (shl_align_spec Mp e (fexp prec emax (Zpos (digits2_pos Mp) + e))) as [Hez Hmz].
  destruct (shl_align Mp e (fexp prec emax (Zpos (digits2_pos Mp) + e))) as [mz ez].
  cbn [fst snd] in Hez, Hmz. rewrite fexp_eq in Hez, Hmz.
  assert (HezK : 0 <= ez + K) by (unfold K; lia).
  destruct (binary_round_aux_spec false (Zpos mz) ez) as (m3 & e3 & Hres & Hround); [lia |].
  rewrite Hres. apply (rounding_ge mz ez mx ex m3 e3); try assumption.
  rewrite Hmz, Hez. rewrite val_shift by lia.
  replace (Z.min e (Z.max (Zpos (digits2_pos Mp) + e - 53) (-1074)) +
           (e - Z.min e (Z.max (Zpos (digits2_pos Mp) + e - 53) (-1074)))) with e by lia.
  exact Hval.
Qed.

Lemma SFleb_refl_finite m e :
  SFleb (S754_finite false m e) (S754_finite false m e) = true.
Proof. apply SFleb_finite. right. split; lia. Qed.

(** Adding a non-negative number does not lower a non-negative number. *)
Lemma SFadd_ge x y :
  valid_binary x = true -> valid_binary y = true ->
  fin_nonneg x -> fin_nonneg y ->
  SFleb x (SFadd prec emax x y) = true.
Proof.
  intros Hvx Hvy Hx Hy.
  destruct x as [sx | | | [|] mx ex]; try contradiction;
    destruct y as [sy | | | [|] my ey]; try contradiction.
  - destruct sx, sy; reflexivity.
  - reflexivity.
  - apply SFleb_refl_finite.
  - cbn [SFadd cond_Zopp]. cbn [valid_binary] in Hvx, Hvy.
    pose proof (shl_align_spec mx ex (Z.min ex ey)) as [_ Hx'].
    pose proof (shl_align_spec my ey (Z.min ex ey)) as [_ Hy'].
    destruct (bounded_spec _ _ Hvx) as [Hcx _].
    destruct (bounded_spec _ _ Hvy) as [Hcy _].
    cbn [Z.add binary_normalize].
    apply binary_round_ge; [lia | exact Hvx |].
    rewrite Pos2Z.inj_add, Hx'.
    replace (Z.min ex (Z.min ex ey)) with (Z.min ex ey) by lia.
    assert (HK : 0 <= Z.min ex ey + K) by (unfold K; lia).
    transitivity (val (Zpos mx * 2 ^ (ex - Z.min ex ey)) (Z.min ex ey)).
    + rewrite val_shift by lia.
      replace (Z.min ex ey + (ex - Z.min ex ey)) with ex by lia. lia.
    + apply val_le; lia.
Qed.

Lemma Prim2SF_one : Prim2SF 1%float = SFone.
Proof. reflexivity. Qed.

Lemma Prim2SF_zero : Prim2SF 0%float = S754_zero false.
Proof. reflexivity. Qed.

Lemma dig_lower m k : 0 <= k -> 2 ^ k <= Zpos m -> k + 1 <= dig m.
Proof.
  intros Hk Hle. pose proof (dig_bounds m) as [_ Hhi]. pose proof (dig_pos m).
  assert (k < dig m) by (apply pow2_lt_inv; lia). lia.
Qed.

(** A float of the format that is at least 1 has a full mantissa. *)
Lemma ge_one_normal m e :
  bounded prec emax m e = true ->
  SFleb SFone (S754_finite false m e) = true ->
  -52 <= e /\ 2 ^ 52 <= Zpos m.
Proof.
  intros Hb Hle. apply bounded_spec in Hb as [Hcan _].
  apply SFleb_finite in Hle.
  change (Zpos 4503599627370496) with (2 ^ 52) in Hle.
  split; [lia |].
  destruct Hle as [Hlt | [_ Hm]]; [| exact Hm].
  assert (Hd : dig m = 53) by lia.
  pose proof (dig_bounds m) as [Hlo _]. rewrite Hd in Hlo. exact Hlo.
Qed.

Lemma mul_chain a m c P Q :
  0 < a -> 0 <= P -> m <= c -> c * P <= Q -> a * m * P <= a * Q.
Proof.
  intros Ha HP Hm Hc.
  assert (m * P <= Q) by nia.
  rewrite <- Z.mul_assoc. apply Z.mul_le_mono_nonneg_l; lia.
Qed.

(** Multiplying a finite number that is at least 1 by a factor between 0
    and 1 gives a non-negative number that is not above it. *)
Lemma SFmul_le a d :
  valid_binary a = true -> valid_binary d = true ->
  fin a -> SFleb SFone a = true ->
  SFleb (S754_zero false) d = true -> SFleb d SFone = true ->
  fin_nonneg (SFmul prec emax a d) /\
  SFleb (SFmul prec emax a d) a = true.
Proof.
  intros Hva Hvd Hfa Ha Hd0 Hd1.
  destruct a as [sa | | | [|] ma ea]; try contradiction; try discriminate.
  destruct d as [sd | [|] | | [|] md ed]; try discriminate.
  - cbn. split; [exact I | reflexivity].
  - cbn [valid_binary] in Hva, Hvd.
    destruct (ge_one_normal ma ea Hva Ha) as [Hea Hma].
    destruct (bounded_spec _ _ Hvd) as [Hcd _].
    apply SFleb_finite in Hd1.
    change (Zpos 4503599627370496) with (2 ^ 52) in Hd1.
    cbn [SFmul xorb].
    destruct (binary_round_aux_spec false (Zpos (ma * md)) (ea + ed))
      as (m3 & e3 & Hres & Hround); [lia |].
    rewrite Hres.
    assert (HK : 0 <= ea + ed + K) by (unfold K; lia).
    assert (Hle : SFleb (result false m3 e3) (S754_finite false ma ea) = true).
    { apply (rounding_le (ma * md) (ea + ed) ma ea m3 e3); try assumption.
      - rewrite fexp_eq.
        assert (53 <= dig (ma * md)); [| lia].
        apply (dig_lower _ 52); [lia |]. rewrite Pos2Z.inj_mul. nia.
      - unfold val. rewrite Pos2Z.inj_mul.
        pose proof (dig_bounds md) as [_ Hmdhi]. pose proof (dig_pos md).
        assert (HeaK : 0 <= ea + K) by (unfold K; lia).
        pose proof (pow2_pos (ea + ed + K) HK) as Hp.
        destruct Hd1 as [Hlt | [Heq Hm]].
        + assert (Hd53 : dig md <= 53) by lia.
          assert (Zpos md < 2 ^ 53).
          { eapply Z.lt_le_trans; [exact Hmdhi |]. apply pow2_le. lia. }
          assert (2 ^ 53 * 2 ^ (ea + ed + K) <= 2 ^ (ea + K)).
          { rewrite <- pow2_split by lia. apply pow2_le. lia. }
          apply (mul_chain _ _ (2 ^ 53)); lia.
        + assert (2 ^ 52 * 2 ^ (ea + ed + K) = 2 ^ (ea + K)).
          { rewrite <- pow2_split by lia. f_equal. lia. }
          apply (mul_chain _ _ (2 ^ 52)); lia. }
    split; [| exact Hle].
    unfold result in *. destruct m3 as [| p3 | p3]; try exact I.
    + destruct (e3 <=? emax - prec); [exact I | discriminate].
    + discriminate.
Qed.

Lemma SFltb_finite m1 e1 m2 e2 :
  SFltb (S754_finite false m1 e1) (S754_finite false m2 e2) = true <->
  e1 < e2 \/ (e1 = e2 /\ Zpos m1 < Zpos m2).
Proof.
  unfold SFltb, SFcompare.
  destruct (Z.compare_spec e1 e2) as [He | He | He].
  - change (Pos.compare_cont Eq m1 m2) with (Pos.compare m1 m2).
    destruct (Pos.compare_spec m1 m2) as [Hm | Hm | Hm]; split; intros; try lia;
      try discriminate; try reflexivity.
  - split; intros; [lia | reflexivity].
  - split; intros; [discriminate | lia].
Qed.

Lemma SFltb_false_leb m1 e1 m2 e2 :
  SFltb (S754_finite false m1 e1) (S754_finite false m2 e2) = false ->
  SFleb (S754_finite false m2 e2) (S754_finite false m1 e1) = true.
Proof.
  intros Hlt. apply SFleb_finite.
  destruct (Z_lt_le_dec e2 e1) as [| Hge]; [now left |].
  destruct (Z_lt_le_dec e1 e2) as [Hlt' | Hge'].
  - assert (SFltb (S754_finite false m1 e1) (S754_finite false m2 e2) = true)
      by (apply SFltb_finite; now left).
    congruence.
  - right. split; [lia |].
    destruct (Z_lt_le_dec (Zpos m1) (Zpos m2)) as [Hm | Hm]; [| exact Hm].
    assert (SFltb (S754_finite false m1 e1) (S754_finite false m2 e2) = true)
      by (apply SFltb_finite; right; split; lia).
    congruence.
Qed.

(** The order is total on numbers: a finite number that is not below 1 is
    at least 1. *)
Lemma SFltb_false_ge a :
  fin a -> SFltb a SFone = false -> SFleb SFone a = true.
Proof.
  intros Hfa Hlt.
  destruct a as [sa | | | [|] ma ea]; try contradiction; try discriminate.
  now apply SFltb_false_leb.
Qed.

(** What a finite sum or product says about its first operand. *)
Lemma SFadd_fin_inv a y : fin (SFadd prec emax a y) -> fin a.
Proof.
  destruct a as [sa | sa | | sa ma ea]; cbn; try trivial;
    destruct y as [sy | sy | | sy my ey]; cbn; try trivial;
    destruct sa, sy; cbn; trivial.
Qed.

Lemma SFmul_fin_inv a d : fin (SFmul prec emax a d) -> fin a.
Proof.
  destruct a as [sa | sa | | sa ma ea]; cbn; try trivial;
    destruct d as [sd | sd | | sd md ed]; cbn; trivial.
Qed.

Lemma trunc_SF f : F64.trunc f = SFtrunc (Prim2SF f).
Proof. reflexivity. Qed.

Lemma SFtrunc_fin x z : SFtrunc x = Some z -> fin x.
Proof. destruct x; cbn; intros; try discriminate; exact I. Qed.

Lemma truncZ_val m e :
  0 <= e + K -> truncZ m e = val m e / 2 ^ K.
Proof.
  intros He. unfold truncZ, val.
  assert (HK : 0 <= K) by (unfold K; lia).
  pose proof (pow2_pos K HK).
  destruct (Z.leb_spec 0 e) as [Hpos | Hneg].
  - rewrite Z.shiftl_mul_pow2 by lia.
    rewrite (pow2_split e K) by lia. rewrite Z.mul_assoc.
    rewrite Z.div_mul by lia. reflexivity.
  - rewrite Z.shiftr_div_pow2 by lia.
    replace K with (- e + (e + K)) at 2 by lia.
    rewrite (pow2_split (- e) (e + K)) by lia.
    pose proof (pow2_pos (e + K) He). pose proof (pow2_pos (- e) ltac:(lia)).
    rewrite Z.div_mul_cancel_r by lia. reflexivity.
Qed.

(** Between floats of the format the order of the exponents, then of the
    mantissas, is the order of the values. *)
Lemma bounded_le_val ma ea mb eb :
  bounded prec emax ma ea = true -> bounded prec emax mb eb = true ->
  SFleb (S754_finite false ma ea) (S754_finite false mb eb) = true ->
  val (Zpos ma) ea <= val (Zpos mb) eb.
Proof.
  intros Ha Hb Hle.
  apply bounded_spec in Ha as [Hca _]. apply bounded_spec in Hb as [Hcb _].
  apply SFleb_finite in Hle.
  assert (HaK : 0 <= ea + K) by (unfold K; lia).
  assert (HbK : 0 <= eb + K) by (unfold K; lia).
  destruct Hle as [Hlt | [-> Hm]]; [| now apply val_le].
  pose proof (val_bounds ma ea HaK) as [_ Hhi].
  pose proof (val_bounds mb eb HbK) as [Hlo _].
  pose proof (dig_pos ma). pose proof (dig_pos mb).
  assert (2 ^ (dig ma + ea + K) <= 2 ^ (dig mb - 1 + eb + K)).
  { apply pow2_le. lia. }
  lia.
Qed.

(** The integer part is monotone on non-negative numbers. *)
Lemma SFtrunc_mono a b zb :
  valid_binary a = true -> valid_binary b = true ->
  fin_nonneg a -> SFleb a b = true -> SFtrunc b = Some zb ->
  exists za, SFtrunc a = Some za /\ 0 <= za <= zb.
Proof.
  intros Hva Hvb Ha Hle Hb.
  assert (HK : 0 <= K) by (unfold K; lia).
  pose proof (pow2_pos K HK) as HpK.
  destruct a as [sa | | | [|] ma ea]; try contradiction.
  - exists 0. split; [reflexivity |].
    destruct b as [sb | [|] | | [|] mb eb]; try discriminate.
    + injection Hb as <-. lia.
    + cbn [valid_binary] in Hvb. apply bounded_spec in Hvb as [Hcb _].
      cbn [SFtrunc] in Hb. injection Hb as <-.
      fold (truncZ (Zpos mb) eb). rewrite truncZ_val by (unfold K; lia).
      split; [lia |]. apply Z.div_pos; [| lia].
      unfold val. pose proof (pow2_pos (eb + K) ltac:(unfold K; lia)). lia.
  - destruct b as [sb | [|] | | [|] mb eb]; try discriminate.
    cbn [valid_binary] in Hva, Hvb.
    pose proof (bounded_le_val _ _ _ _ Hva Hvb Hle) as Hval.
    apply bounded_spec in Hva as [Hca _]. apply bounded_spec in Hvb as [Hcb _].
    cbn [SFtrunc] in *. injection Hb as <-.
    eexists. split; [reflexivity |].
    fold (truncZ (Zpos ma) ea). fold (truncZ (Zpos mb) eb).
    rewrite !truncZ_val by (unfold K; lia).
    split.
    + apply Z.div_pos; [| lia].
      unfold val. pose proof (pow2_pos (ea + K) ltac:(unfold K; lia)). lia.
    + apply Z.div_le_mono; lia.
Qed.

Lemma dig_unique m k :
  1 <= k -> 2 ^ (k - 1) <= Zpos m < 2 ^ k -> dig m = k.
Proof.
  intros Hk [Hlo Hhi]. pose proof (dig_bounds m) as [Hlo' Hhi']. pose proof (dig_pos m).
  assert (k - 1 < dig m) by (apply pow2_lt_inv; lia).
  assert (dig m - 1 < k) by (apply pow2_lt_inv; lia).
  lia.
Qed.

(** A positive integer below 2^53 converts exactly, to a positive float. *)
Lemma binary_normalize_small p :
  Zpos p < 2 ^ 53 ->
  exists mz ez,
    binary_normalize prec emax (Zpos p) 0 false = S754_finite false mz ez /\
    bounded prec emax mz ez = true.
Proof.
  intros Hp. cbn [binary_normalize]. unfold binary_round.
  pose proof (dig_bounds p) as [Hlo Hhi]. pose proof (dig_pos p).
  assert (Hd : dig p <= 53).
  { assert (dig p - 1 < 53) by (apply pow2_lt_inv; lia). lia. }
  pose proof (shl_align_spec p 0 (fexp prec emax (Zpos (digits2_pos p) + 0))) as [Hez Hmz].
  destruct (shl_align p 0 (fexp prec emax (Zpos (digits2_pos p) + 0))) as [mz ez].
  cbn [fst snd] in Hez, Hmz. rewrite fexp_eq in Hez, Hmz. fold (dig p) in Hez, Hmz.
  assert (Hez' : ez = dig p - 53) by lia.
  replace (0 - Z.min 0 (Z.max (dig p + 0 - 53) (-1074))) with (53 - dig p) in Hmz by lia.
  assert (Hdz : dig mz = 53).
  { apply dig_unique; [lia |]. rewrite Hmz.
    pose proof (pow2_pos (53 - dig p) ltac:(lia)).
    assert (A : 2 ^ (53 - 1) = 2 ^ (dig p - 1) * 2 ^ (53 - dig p)).
    { rewrite <- pow2_split by lia. f_equal. lia. }
    assert (B : 2 ^ 53 = 2 ^ dig p * 2 ^ (53 - dig p)).
    { rewrite <- pow2_split by lia. f_equal. lia. }
    rewrite A, B. nia. }
  destruct (binary_round_aux_spec false (Zpos mz) ez) as (m3 & e3 & Hres & Hround); [lia |].
  destruct Hround as [n1 m1 rest m2 n2 rest2 Hn1 Hm1 HM Hrest Hm2 Hup Hn2 Hm3 Hm2eq Hrest2 He3].
  rewrite Zdigits2_pos, fexp_eq, Hdz in Hn1.
  assert (Hn1z : n1 = 0) by lia. rewrite Hn1z in *. change (2 ^ 0) with 1 in *.
  assert (Hm2z : m2 = Zpos mz).
  { destruct (Z.eq_dec m2 (m1 + 1)) as [Heq | Hne]; [apply Hup in Heq; lia | lia]. }
  rewrite Hm2z, Zdigits2_pos, fexp_eq, Hdz in Hn2.
  assert (Hn2z : n2 = 0) by lia. rewrite Hn2z in *. change (2 ^ 0) with 1 in *.
  assert (m3 = Zpos mz) by lia. subst m3.
  exists mz, ez. rewrite Hres. unfold result.
  change (emax - prec) with 971.
  destruct (Z.leb_spec e3 971) as [_ | Hc]; [| lia].
  split; [f_equal; lia |].
  unfold bounded, canonical_mantissa. rewrite fexp_eq. fold (dig mz). rewrite Hdz.
  change (emax - prec) with 971.
  apply andb_true_intro. split; [apply Z.eqb_eq | apply Z.leb_le]; lia.
Qed.

Lemma of_Z_nonneg z :
  0 <= z < 2 ^ 53 -> fin_nonneg (Prim2SF (F64.of_Z z)).
Proof.
  intros [Hlo Hhi]. unfold F64.of_Z.
  destruct z as [| p | p]; [exact I | | lia].
  destruct (binary_normalize_small p Hhi) as (mz & ez & Heq & Hb).
  rewrite Heq, Prim2SF_SF2Prim by exact Hb. exact I.
Qed.

(** *** The same facts on primitive floats *)

Lemma trunc_fin f z : F64.trunc f = Some z -> fin (Prim2SF f).
Proof. rewrite trunc_SF. apply SFtrunc_fin. Qed.

Lemma add_fin_inv a y : fin (Prim2SF (a + y)) -> fin (Prim2SF a).
Proof. rewrite add_spec. apply SFadd_fin_inv. Qed.

Lemma mul_fin_inv a d : fin (Prim2SF (a * d)) -> fin (Prim2SF a).
Proof. rewrite mul_spec. apply SFmul_fin_inv. Qed.

Lemma fin_nonneg_fin x : fin_nonneg x -> fin x.
Proof. destruct x as [| | | [|]]; cbn; trivial. Qed.

Lemma add_ge (a y : float) :
  fin_nonneg (Prim2SF a) -> fin_nonneg (Prim2SF y) ->
  (a <=? a + y)%float = true.
Proof.
  intros Ha Hy. rewrite leb_spec, add_spec.
  apply SFadd_ge; auto using Prim2SF_valid.
Qed.

Lemma mul_le (a d : float) :
  fin (Prim2SF a) -> (1 <=? a)%float = true ->
  (0 <=? d)%float = true -> (d <=? 1)%float = true ->
  fin_nonneg (Prim2SF (a * d)) /\ (a * d <=? a)%float = true.
Proof.
  intros Ha H1 Hd0 Hd1. rewrite leb_spec in H1, Hd0, Hd1.
  rewrite leb_spec, mul_spec.
  apply SFmul_le; auto using Prim2SF_valid.
Qed.

Lemma ltb_false_ge (a : float) :
  fin (Prim2SF a) -> (a <? 1)%float = false -> (1 <=? a)%float = true.
Proof.
  intros Ha Hlt. rewrite ltb_spec in Hlt. rewrite leb_spec.
  now apply SFltb_false_ge.
Qed.

Lemma ge_one_nonneg (a : float) :
  fin (Prim2SF a) -> (1 <=? a)%float = true -> fin_nonneg (Prim2SF a).
Proof.
  intros Ha H1. rewrite leb_spec in H1. rewrite Prim2SF_one in H1.
  destruct (Prim2SF a) as [sa | | | [|] ma ea]; try contradiction;
    try discriminate; exact I.
Qed.

Lemma trunc_mono (a b : float) zb :
  fin_nonneg (Prim2SF a) -> (a <=? b)%float = true -> F64.trunc b = Some zb ->
  exists za, F64.trunc a = Some za /\ 0 <= za <= zb.
Proof.
  intros Ha Hle Hb. rewrite leb_spec in Hle. rewrite trunc_SF in *.
  apply (SFtrunc_mono _ (Prim2SF b)); auto using Prim2SF_valid.
Qed.

End F64Facts.

(** ** Properties of the score *)
Module BanScoreSpec.
Import BanScore.

Lemma wrap64_small z : Int.is_int64 z -> Int.wrap64 z = z.
Proof.
  unfold Int.is_int64, Int.wrap64. intros Hz.
  rewrite Z.mod_small; lia.
Qed.

Lemma sub64_shift t d : Int.is_int64 d -> Int.sub64 (t + d) t = d.
Proof.
  intros Hd. unfold Int.sub64.
  replace (t + d - t) with d by lia. now apply wrap64_small.
Qed.

Lemma wrap32_small z : Int.is_uint32 z -> Int.wrap32 z = z.
Proof.
  unfold Int.is_uint32, Int.wrap32, Int.MaxUint32. intros Hz.
  apply Z.mod_small. lia.
Qed.

Lemma wrap32_range z : Int.is_uint32 (Int.wrap32 z).
Proof.
  unfold Int.is_uint32, Int.wrap32, Int.MaxUint32.
  pose proof (Z.mod_pos_bound z (2 ^ 32)). lia.
Qed.

Section Generic.
Context `{GoMath}.

Lemma index_table t :
  0 <= t < precomputedLen -> index precomputedFactor t = Some (decay t).
Proof.
  intros [Hlo Hhi]. unfold index, precomputedFactor.
  destruct (Z.ltb_spec t 0) as [Hneg | _]; [lia |].
  rewrite list_lookup_fmap, lookup_seqZ_lt by lia.
  cbn [fmap option_fmap option_map]. unfold decay.
  rewrite Z.add_0_l, Z2Nat.id by lia. reflexivity.
Qed.

Lemma decayFactor_decay t : 0 <= t -> decayFactor t = Some (decay t).
Proof.
  intros Ht. unfold decayFactor.
  destruct (Z.ltb_spec t precomputedLen) as [Hsmall | Hlarge].
  - apply index_table. lia.
  - reflexivity.
Qed.

Lemma decayFactor_negative t : t < 0 -> decayFactor t = None.
Proof.
  intros Ht. unfold decayFactor, index, precomputedLen.
  destruct (Z.ltb_spec t 64); [| lia].
  destruct (Z.ltb_spec t 0); [reflexivity | lia].
Qed.

(** A conversion yields a [uint32] on every platform. *)
Lemma to_uint32_range f : Int.is_uint32 (to_uint32 f).
Proof.
  unfold to_uint32.
  destruct (F64.trunc f) as [z |]; [| apply wrap32_range].
  destruct (Z.leb_spec 0 z); cbn [andb]; [| apply wrap32_range].
  destruct (Z.leb_spec z Int.MaxUint32); [| apply wrap32_range].
  split; assumption.
Qed.

(** Both functions return: the table is never indexed out of range. *)
Lemma int_total s t : is_Some (int s t).
Proof.
  unfold int.
  destruct (transient s <? 1)%float; cbn [orb]; [eauto |].
  destruct (Z.ltb_spec (Int.sub64 t (lastUnix s)) 0) as [Hneg | Hpos];
    cbn [orb]; [eauto |].
  destruct (Lifetime <? _); [eauto |].
  rewrite decayFactor_decay by lia. cbn. eauto.
Qed.

Lemma increase_total pd td t s : is_Some (increase pd td t s).
Proof.
  unfold increase.
  destruct (0 <? td); cbn; [| eauto].
  destruct (Lifetime <? _); cbn; [eauto |].
  destruct (1 <? transient s)%float; cbn [andb]; [| cbn; eauto].
  destruct (Z.ltb_spec 0 (Int.sub64 t (lastUnix s))) as [Hpos | Hneg];
    [| cbn; eauto].
  rewrite decayFactor_decay by lia. cbn. eauto.
Qed.

(** The persistent part after a call, whatever happens to the rest. *)
Lemma increase_persistent pd td t s :
  exists r s',
    increase pd td t s = Some (r, s') /\
    persistent s' = Int.add32 (persistent s) pd.
Proof.
  unfold increase.
  destruct (0 <? td); cbn [mbind option_bind]; [| eauto].
  destruct (Lifetime <? _); cbn [mbind option_bind]; [eauto |].
  destruct (1 <? transient s)%float; cbn [andb]; [| cbn; eauto].
  destruct (Z.ltb_spec 0 (Int.sub64 t (lastUnix s))) as [Hpos | Hneg];
    [| cbn; eauto].
  rewrite decayFactor_decay by lia. cbn. eauto.
Qed.

(** C3: at evaluation time [t], with [dt = t - lastUnix]: when the stored
    transient is below 1, or [dt < 0], or [dt > Lifetime], the score is the
    persistent part alone; otherwise it is the persistent part plus the
    transient multiplied by [exp(-dt * ln2 / 60)] and truncated to a
    [uint32]. The sum is the [uint32] sum of the program, which is the sum
    of the integers whenever that fits. *)
Theorem int_cases (s : DynamicBanScore) (t : Z) :
  let dt := Int.sub64 t (lastUnix s) in
  (((transient s <? 1)%float = true \/ dt < 0 \/ Lifetime < dt) ->
     int s t = Some (persistent s))
  /\
  (~ ((transient s <? 1)%float = true \/ dt < 0 \/ Lifetime < dt) ->
     int s t =
       Some (Int.add32 (persistent s)
               (to_uint32 (transient s * Exp ((-1.0) * F64.of_Z dt * lambda))%float)))
  /\
  (forall x,
     x = to_uint32 (transient s * Exp ((-1.0) * F64.of_Z dt * lambda))%float ->
     0 <= persistent s -> persistent s + x <= Int.MaxUint32 ->
     Int.add32 (persistent s) x = persistent s + x).
Proof.
  intros dt.
  match goal with |- ?A /\ ?B /\ ?C => cut (A /\ B) end.
  { intros [Hpers Hsum]. split; [exact Hpers |]. split; [exact Hsum |].
    intros x Hx Hp Hfit. apply wrap32_small.
    pose proof (to_uint32_range
                  (transient s * Exp ((-1.0) * F64.of_Z dt * lambda))%float)
      as [Hlo _].
    rewrite <- Hx in Hlo. unfold Int.is_uint32. lia. }
  unfold int. fold dt.
  destruct (transient s <? 1)%float eqn:Htr; cbn [orb].
  { split; [reflexivity | intros Hn; exfalso; apply Hn; now left]. }
  destruct (Z.ltb_spec dt 0) as [Hneg | Hnneg]; cbn [orb].
  { split; [reflexivity | intros Hn; exfalso; apply Hn; right; now left]. }
  destruct (Z.ltb_spec Lifetime dt) as [Hold | Hyoung].
  { split; [reflexivity | intros Hn; exfalso; apply Hn; right; now right]. }
  split.
  - intros [Hc | [Hc | Hc]]; [discriminate | lia | lia].
  - intros _. rewrite decayFactor_decay by lia. reflexivity.
Qed.

(** C4: [increase(persistentDelta, transientDelta, t)] adds
    [persistentDelta] to the persistent part in every case; for a nonzero
    [transientDelta], with [dt = t - lastUnix], the transient part is set to
    0 before [transientDelta] is added when [dt > Lifetime], is multiplied
    by the decay factor before [transientDelta] is added when [dt > 0] and
    the transient exceeds 1, and [lastUnix] becomes [t]. *)
Theorem increase_cases (s : DynamicBanScore) (persistentDelta transientDelta t : Z)
    (Htd : Int.is_uint32 transientDelta) :
  let dt := Int.sub64 t (lastUnix s) in
  exists r s',
    increase persistentDelta transientDelta t s = Some (r, s') /\
    r = Int.add32 (persistent s') (to_uint32 (transient s')) /\
    persistent s' = Int.add32 (persistent s) persistentDelta /\
    (transientDelta <> 0 ->
       lastUnix s' = t /\
       (Lifetime < dt ->
          transient s' = (0 + F64.of_Z transientDelta)%float) /\
       (dt <= Lifetime -> 0 < dt -> (1 <? transient s)%float = true ->
          transient s' =
            (transient s * Exp ((-1.0) * F64.of_Z dt * lambda)
             + F64.of_Z transientDelta)%float) /\
       (dt <= Lifetime -> ~ (0 < dt /\ (1 <? transient s)%float = true) ->
          transient s' = (transient s + F64.of_Z transientDelta)%float)).
Proof.
  intros dt. unfold increase. fold dt.
  destruct Htd as [Htd0 _].
  destruct (Z.ltb_spec 0 transientDelta) as [Hpos | Hzero]; cbn [mbind option_bind].
  2: { eexists _, _. do 3 (split; [reflexivity |]). lia. }
  destruct (Z.ltb_spec Lifetime dt) as [Hold | Hyoung]; cbn [mbind option_bind].
  { eexists _, _. do 3 (split; [reflexivity |]).
    intros _. cbn. repeat split; try reflexivity; intros; lia. }
  destruct (1 <? transient s)%float eqn:Htr; cbn [andb].
  2: { eexists _, _. do 3 (split; [reflexivity |]).
       intros _. cbn. repeat split; try reflexivity; intros; lia. }
  destruct (Z.ltb_spec 0 dt) as [Hdt | Hdt].
  - rewrite decayFactor_decay by lia. cbn [mbind option_bind].
    eexists _, _. do 3 (split; [reflexivity |]).
    intros _. cbn. repeat split; try reflexivity; intros; lia.
  - eexists _, _. do 3 (split; [reflexivity |]).
    intros _. cbn. repeat split; try reflexivity; intros; lia.
Qed.

(** C7: for every number of seconds [t >= 0] the decay factor the score
    uses is [exp(-t * ln2 / 60)]: the table read for [t] in 0..63 and the
    computation on demand for a larger [t] give the value of the one
    formula. *)
Theorem decayFactor_formula (t : Z) (Ht : 0 <= t) :
  decayFactor t = Some (decay t) /\
  (t < precomputedLen -> precomputedFactor !! Z.to_nat t = Some (decay t)) /\
  (precomputedLen <= t ->
     decayFactor t = Some (Exp ((-1.0) * F64.of_Z t * lambda)%float)).
Proof.
  split; [now apply decayFactor_decay |]. split.
  - intros Hsmall.
    pose proof (index_table t (conj Ht Hsmall)) as Hidx.
    unfold index in Hidx.
    destruct (Z.ltb_spec t 0); [lia | exact Hidx].
  - intros Hlarge. unfold decayFactor.
    destruct (Z.ltb_spec t precomputedLen); [lia | reflexivity].
Qed.

Lemma replay_total (calls : history) (s : DynamicBanScore) :
  is_Some (replay calls s).
Proof.
  revert s. induction calls as [| [[pd td] t] rest IH]; intros s; cbn.
  - eauto.
  - destruct (increase_total pd td t s) as [[r s'] Hinc].
    rewrite Hinc. apply IH.
Qed.

(** C8: whatever [increase] calls came before and whenever the score is
    read, [Reset] followed by a read gives 0. *)
Theorem reset_then_int :
  (forall (s : DynamicBanScore) (t : Z), int (Reset s) t = Some 0) /\
  (forall (calls : history) (t : Z),
     exists s, replay calls zero = Some s /\ int (Reset s) t = Some 0).
Proof.
  split; [reflexivity |].
  intros calls t. destruct (replay_total calls zero) as [s Hs].
  exists s. split; [exact Hs | reflexivity].
Qed.

(** C10: [increase(persistentDelta, 0, t)] changes neither the transient
    part nor [lastUnix], and returns the new persistent part plus the stored
    transient truncated to a [uint32], with no decay applied; the value it
    returns can therefore be above the score read at the same [t]. *)
Theorem increase_zero_transient :
  (forall (s : DynamicBanScore) (persistentDelta t : Z),
     increase persistentDelta 0 t s =
       Some (Int.add32 (Int.add32 (persistent s) persistentDelta)
               (to_uint32 (transient s)),
             {| lastUnix := lastUnix s;
                transient := transient s;
                persistent := Int.add32 (persistent s) persistentDelta |}))
  /\
  (exists (s : DynamicBanScore) (persistentDelta t : Z) r s' v,
     increase persistentDelta 0 t s = Some (r, s') /\
     int s' t = Some v /\
     v < r).
Proof.
  split; [reflexivity |].
  exists {| lastUnix := 0; transient := 50%float; persistent := 0 |}, 0, 1801.
  eexists _, _, _. split; [reflexivity |]. split; [reflexivity |].
  vm_compute. reflexivity.
Qed.

End Generic.

(** *** The test vectors of the package, on the portable [math.Exp] *)

(** The constant the compiler computes for [lambda]. *)
Example lambda_bits : lambda = 0x1.7a8cffee8c654p-7%float.
Proof. vm_compute. reflexivity. Qed.

(** After one half-life the factor is one half to the last bit; after 7
    and after 30 half-lives it is a few units in the last place above the
    power of two. *)
Example exp_at_halflives :
  GoExp.exp ((-1.0) * F64.of_Z 60 * lambda) = 0.5%float /\
  GoExp.exp ((-1.0) * F64.of_Z 420 * lambda) = 0x1.0000000000001p-7%float /\
  GoExp.exp ((-1.0) * F64.of_Z 1800 * lambda) = 0x1.0000000000004p-30%float.
Proof. vm_compute. repeat split; reflexivity. Qed.

Example exp_constants :
  GoExp.Ln2Hi = 0x1.62e42feep-1%float /\
  GoExp.Ln2Lo = 0x1.a39ef35793c76p-33%float /\
  GoExp.exp 1 = 0x1.5bf0a8b145769p+1%float /\
  GoExp.exp 0 = 1%float.
Proof. vm_compute. repeat split; reflexivity. Qed.

(** The first [increase] on a zero value stores the delta itself, at any
    time [t0]. *)
Lemma increase_fresh unrep pd td t0 :
  0 < td ->
  @increase (go_portable unrep) pd td t0 zero =
    Some (Int.add32 (Int.add32 0 pd)
            (@to_uint32 (go_portable unrep) (0 + F64.of_Z td)%float),
          {| lastUnix := t0;
             transient := (0 + F64.of_Z td)%float;
             persistent := Int.add32 0 pd |}).
Proof.
  intros Htd. unfold increase.
  destruct (Z.ltb_spec 0 td); [| lia].
  cbn [lastUnix transient persistent zero].
  destruct (Lifetime <? _); reflexivity.
Qed.

(** C1: on a zero value, [increase(100, 50)] at [t0] returns 150; the
    score read 60 seconds later is 125, the transient part having halved
    after one half-life, and read 7 * 60 seconds later it is 100, the
    persistent part alone. *)
Theorem decay_test_vector (unrep : float -> Z) (t0 : Z) :
  let s1 := {| lastUnix := t0; transient := 50%float; persistent := 100 |} in
  @increase (go_portable unrep) 100 50 t0 zero = Some (150, s1) /\
  @int (go_portable unrep) s1 (t0 + 60) = Some 125 /\
  @int (go_portable unrep) s1 (t0 + 7 * 60) = Some 100.
Proof.
  intros s1. split.
  { rewrite increase_fresh by lia. reflexivity. }
  unfold int, s1. cbn [lastUnix transient persistent].
  rewrite !sub64_shift by (unfold Int.is_int64; lia).
  split; vm_compute; reflexivity.
Qed.

(** C2: on a zero value, after [increase(0, MaxUint32)] at [t0], the score
    read at [t0 + 1800], the last second of the lifetime, is 3 (the decayed
    transient 3.99... truncated, not 4), and read at [t0 + 1801] it is 0. *)
Theorem lifetime_test_vector (unrep : float -> Z) (t0 : Z) :
  let s1 := {| lastUnix := t0; transient := 4294967295%float; persistent := 0 |} in
  @increase (go_portable unrep) 0 Int.MaxUint32 t0 zero =
    Some (Int.MaxUint32, s1) /\
  @int (go_portable unrep) s1 (t0 + Lifetime) = Some 3 /\
  @int (go_portable unrep) s1 (t0 + (Lifetime + 1)) = Some 0.
Proof.
  intros s1. split.
  { rewrite increase_fresh by reflexivity. reflexivity. }
  unfold int, s1. cbn [lastUnix transient persistent].
  rewrite !sub64_shift by (unfold Int.is_int64, Lifetime; lia).
  split; vm_compute; reflexivity.
Qed.

(** C9 as stated fails where the [uint32] sum wraps: one more point on a
    persistent part of [MaxUint32] leaves 0, and the score the call returns
    is below the score read just before it. *)
Lemma increase_persistent_wraps :
  exists r s',
    @increase (go_portable (fun _ => 0)) 1 0 0
      {| lastUnix := 0; transient := 0%float; persistent := Int.MaxUint32 |}
    = Some (r, s') /\
    persistent s' = 0 /\
    persistent s' < Int.MaxUint32 /\
    @int (go_portable (fun _ => 0))
      {| lastUnix := 0; transient := 0%float; persistent := Int.MaxUint32 |} 0
    = Some Int.MaxUint32 /\
    r < Int.MaxUint32.
Proof.
  eexists _, _. split; [reflexivity |]. vm_compute. repeat split; reflexivity.
Qed.

Lemma increase_cases_witness :
  Int.is_uint32 50 /\
  exists r s',
    @increase (go_portable (fun _ => 0)) 100 50 2000
      {| lastUnix := 1000; transient := 8%float; persistent := 7 |}
    = Some (r, s') /\
    persistent s' = 107 /\ lastUnix s' = 2000 /\
    transient s' =
      (8 * GoExp.exp ((-1.0) * F64.of_Z 1000 * lambda) + F64.of_Z 50)%float.
Proof.
  assert (H50 : Int.is_uint32 50) by (unfold Int.is_uint32, Int.MaxUint32; lia).
  split; [exact H50 |].
  destruct (increase_cases (H := go_portable (fun _ => 0))
              {| lastUnix := 1000; transient := 8%float; persistent := 7 |}
              100 50 2000 H50)
    as (r & s' & Hinc & _ & Hp & Ht).
  exists r, s'. split; [exact Hinc |]. split; [exact Hp |].
  destruct Ht as (Hlast & _ & Hdecay & _); [lia |].
  split; [exact Hlast |].
  apply Hdecay; [vm_compute; discriminate | reflexivity | reflexivity].
Defined.

Lemma decayFactor_formula_witness :
  0 <= 60 /\
  @decayFactor (go_portable (fun _ => 0)) 60 = Some 0.5%float /\
  @decayFactor (go_portable (fun _ => 0)) 420 =
    Some (GoExp.exp ((-1.0) * F64.of_Z 420 * lambda)%float).
Proof.
  assert (H60 : 0 <= 60) by lia.
  split; [exact H60 |]. split.
  - destruct (decayFactor_formula (H := go_portable (fun _ => 0)) 60 H60)
      as (Hd & _ & _).
    rewrite Hd. vm_compute. reflexivity.
  - assert (H420 : 0 <= 420) by lia.
    destruct (decayFactor_formula (H := go_portable (fun _ => 0)) 420 H420)
      as (_ & _ & Hd).
    apply Hd. unfold precomputedLen. lia.
Defined.

End BanScoreSpec.

(** ** The score does not go down by an increase *)
Module BanScoreMonotone.
Import BanScore BanScoreSpec F64Spec F64Facts.

Section Generic.
Context `{GoMath}.

Lemma to_uint32_trunc f z :
  F64.trunc f = Some z -> Int.is_uint32 z -> to_uint32 f = z.
Proof.
  intros Hf [Hlo Hhi]. unfold to_uint32. rewrite Hf.
  destruct (Z.leb_spec 0 z); [| lia].
  destruct (Z.leb_spec z Int.MaxUint32); [reflexivity | lia].
Qed.

Lemma of_uint32_nonneg td :
  Int.is_uint32 td -> fin_nonneg (Prim2SF (F64.of_Z td)).
Proof.
  intros [Hlo Hhi]. apply of_Z_nonneg. unfold Int.MaxUint32 in Hhi.
  split; [exact Hlo |].
  assert (2 ^ 32 <= 2 ^ 53) by (apply pow2_le; lia).
  assert (td < 2 ^ 32) by (change (2 ^ 32) with 4294967296; lia). lia.
Qed.

(** The score [int] reads: the persistent part alone, or with the decayed
    transient. *)
Lemma int_inv s t v :
  int s t = Some v ->
  v = persistent s \/
  ((transient s <? 1)%float = false /\
   0 <= Int.sub64 t (lastUnix s) <= Lifetime /\
   v = Int.add32 (persistent s)
         (to_uint32 (transient s * decay (Int.sub64 t (lastUnix s)))%float)).
Proof.
  unfold int.
  destruct (transient s <? 1)%float; cbn [orb]; [intros [= <-]; now left |].
  destruct (Z.ltb_spec (Int.sub64 t (lastUnix s)) 0) as [Hneg | Hpos];
    cbn [orb]; [intros [= <-]; now left |].
  destruct (Z.ltb_spec Lifetime (Int.sub64 t (lastUnix s))) as [Hold | Hyoung];
    [intros [= <-]; now left |].
  rewrite decayFactor_decay by lia. cbn. intros [= <-]. right.
  split; [reflexivity |]. split; [lia | reflexivity].
Qed.

(** What [increase] leaves: the old transient is only ever decayed, by the
    factor or to 0 after the lifetime, before the delta is added. *)
Lemma increase_inv pd td t s r s' :
  increase pd td t s = Some (r, s') ->
  let dt := Int.sub64 t (lastUnix s) in
  r = Int.add32 (persistent s') (to_uint32 (transient s')) /\
  persistent s' = Int.add32 (persistent s) pd /\
  ((td <= 0 /\ transient s' = transient s /\ lastUnix s' = lastUnix s) \/
   (0 < td /\ lastUnix s' = t /\
    ((Lifetime < dt /\ transient s' = (0 + F64.of_Z td)%float) \/
     (0 < dt <= Lifetime /\ (1 <? transient s)%float = true /\
      transient s' = (transient s * decay dt + F64.of_Z td)%float) \/
     (dt <= Lifetime /\ transient s' = (transient s + F64.of_Z td)%float)))).
Proof.
  intros Hinc dt. unfold increase in Hinc. fold dt in Hinc.
  destruct (Z.ltb_spec 0 td) as [Hpos | Hzero]; cbn [mbind option_bind] in Hinc.
  2: { injection Hinc as <- <-. cbn. split; [reflexivity |].
       split; [reflexivity |]. left. repeat split; lia. }
  destruct (Z.ltb_spec Lifetime dt) as [Hold | Hyoung]; cbn [mbind option_bind] in Hinc.
  { injection Hinc as <- <-. cbn. split; [reflexivity |].
    split; [reflexivity |]. right. split; [lia |]. split; [reflexivity |].
    left. split; [lia | reflexivity]. }
  destruct (1 <? transient s)%float eqn:Htr; cbn [andb] in Hinc.
  2: { injection Hinc as <- <-. cbn. split; [reflexivity |].
       split; [reflexivity |]. right. split; [lia |]. split; [reflexivity |].
       right. right. split; [lia | reflexivity]. }
  destruct (Z.ltb_spec 0 dt) as [Hdt | Hdt].
  - rewrite decayFactor_decay in Hinc by lia. cbn [mbind option_bind] in Hinc.
    injection Hinc as <- <-. cbn. split; [reflexivity |].
    split; [reflexivity |]. right. split; [lia |]. split; [reflexivity |].
    right. left. split; [lia |]. split; reflexivity.
  - injection Hinc as <- <-. cbn. split; [reflexivity |].
    split; [reflexivity |]. right. split; [lia |]. split; [reflexivity |].
    right. right. split; [lia | reflexivity].
Qed.

(** The integer part of a decayed transient is not above that of the
    transient. *)
Lemma decayed_le (tr d : float) z :
  (tr <? 1)%float = false ->
  (0 <=? d)%float = true -> (d <=? 1)%float = true ->
  F64.trunc tr = Some z ->
  exists za, F64.trunc (tr * d) = Some za /\ 0 <= za <= z.
Proof.
  intros Htr Hd0 Hd1 Hz.
  pose proof (trunc_fin _ _ Hz) as Hfin.
  pose proof (ltb_false_ge _ Hfin Htr) as Hone.
  destruct (mul_le tr d Hfin Hone Hd0 Hd1) as [Hnn Hle].
  exact (trunc_mono _ _ _ Hnn Hle Hz).
Qed.

(** C9, as amended: as long as no [uint32] sum wraps and the integer part
    of the new transient is a [uint32] (the persistent part, the delta and
    that integer part together are at most [MaxUint32]), and with a decay
    factor between 0 and 1 for the time elapsed, the score never decreases
    as a result of [increase]: the persistent part after the call is the
    persistent part before it plus the delta (this much whenever that sum
    fits), the score the call returns is that plus the integer part of the
    new transient, and it is at least the score read just before the call
    at the same time. The stored transient
    is lowered by time decay only (multiplied by the decay factor, or set to
    0 once the lifetime is over) before the delta is added, and is untouched
    when the delta is 0. *)
Theorem increase_never_lowers_score (s : DynamicBanScore) (pd td t : Z)
    (Hp : Int.is_uint32 (persistent s))
    (Hpd : Int.is_uint32 pd)
    (Htd : Int.is_uint32 td)
    (Hd : 0 <= Int.sub64 t (lastUnix s) <= Lifetime ->
          (0 <=? decay (Int.sub64 t (lastUnix s)))%float = true /\
          (decay (Int.sub64 t (lastUnix s)) <=? 1)%float = true) :
  let dt := Int.sub64 t (lastUnix s) in
  exists r s' v,
    increase pd td t s = Some (r, s') /\
    int s t = Some v /\
    (td = 0 -> transient s' = transient s /\ lastUnix s' = lastUnix s) /\
    (td <> 0 ->
       (Lifetime < dt /\ transient s' = (0 + F64.of_Z td)%float) \/
       (0 < dt <= Lifetime /\
        transient s' = (transient s * decay dt + F64.of_Z td)%float) \/
       (dt <= Lifetime /\ transient s' = (transient s + F64.of_Z td)%float)) /\
    (persistent s + pd <= Int.MaxUint32 ->
       persistent s' = persistent s + pd /\ persistent s <= persistent s') /\
    forall z,
      F64.trunc (transient s') = Some z -> Int.is_uint32 z ->
      persistent s + pd + z <= Int.MaxUint32 ->
      r = persistent s + pd + z /\
      v <= r.
Proof.
  intros dt.
  destruct (increase_total pd td t s) as [[r s'] Hinc].
  destruct (int_total s t) as [v Hv].
  exists r, s', v. split; [exact Hinc |]. split; [exact Hv |].
  destruct (increase_inv _ _ _ _ _ _ Hinc) as (Hr & Hpers & Hcases). fold dt in Hcases.
  destruct Htd as [Htd0 Htd1].
  split.
  { intros ->. destruct Hcases as [(_ & Ht & Hl) | (Hc & _)]; [now split | lia]. }
  split.
  { intros Hne. destruct Hcases as [(Hc & _) | (_ & _ & [Ha | [(Hb1 & _ & Hb2) | Hc]])];
      [lia | now left | right; left; now split | right; right; exact Hc]. }
  destruct Hp as [Hp0 Hp1]. destruct Hpd as [Hpd0 Hpd1].
  split.
  { intros Hfit. assert (Hp' : persistent s' = persistent s + pd).
    { rewrite Hpers. apply wrap32_small. unfold Int.is_uint32. lia. }
    split; [exact Hp' | lia]. }
  intros z Hz Hzr Hfit.
  assert (Hzu : to_uint32 (transient s') = z) by now apply to_uint32_trunc.
  destruct Hzr as [Hz0 Hz1].
  assert (Hp' : persistent s' = persistent s + pd).
  { rewrite Hpers. apply wrap32_small. unfold Int.is_uint32. lia. }
  assert (Hr' : r = persistent s + pd + z).
  { rewrite Hr, Hzu, Hp'. apply wrap32_small. unfold Int.is_uint32. lia. }
  split; [exact Hr' |].
  destruct (int_inv s t v Hv) as [-> | (Hlt & Hdt & ->)]; [lia |].
  fold dt in Hdt. fold dt. fold dt in Hd.
  destruct (Hd Hdt) as [Hd0 Hd1].
  (* the integer part of the decayed transient is at most [z] *)
  assert (Hza : exists za, F64.trunc (transient s * decay dt) = Some za /\ 0 <= za <= z).
  { pose proof (of_uint32_nonneg td (conj Htd0 Htd1)) as Hy.
    destruct Hcases as [(_ & Ht & _) | (_ & _ & [(Hold & _) | [(_ & Hone & Ht) | (_ & Ht)]])].
    - rewrite Ht in Hz. now apply decayed_le.
    - lia.
    - rewrite Ht in Hz.
      pose proof (trunc_fin _ _ Hz) as Hfin.
      apply add_fin_inv in Hfin. pose proof (mul_fin_inv _ _ Hfin) as Hfin'.
      pose proof (ltb_false_ge _ Hfin' Hlt) as Hge.
      destruct (mul_le _ _ Hfin' Hge Hd0 Hd1) as [Hnn _].
      exact (trunc_mono _ _ _ Hnn (add_ge _ _ Hnn Hy) Hz).
    - rewrite Ht in Hz.
      pose proof (trunc_fin _ _ Hz) as Hfin. apply add_fin_inv in Hfin.
      pose proof (ltb_false_ge _ Hfin Hlt) as Hge.
      pose proof (ge_one_nonneg _ Hfin Hge) as Hnn.
      destruct (trunc_mono _ _ _ Hnn (add_ge _ _ Hnn Hy) Hz) as (ztr & Hztr & Hr0 & Hr1).
      destruct (decayed_le _ _ _ Hlt Hd0 Hd1 Hztr) as (za & Hza & Ha0 & Ha1).
      exists za. split; [exact Hza | lia]. }
  destruct Hza as (za & Hza & Ha0 & Ha1).
  rewrite (to_uint32_trunc _ za Hza) by (unfold Int.is_uint32; lia).
  unfold Int.add32. rewrite wrap32_small by (unfold Int.is_uint32; lia). lia.
Qed.

End Generic.

(** The portable [math.Exp] yields a factor between 0 and 1 for every
    whole second of the lifetime. *)
Lemma go_portable_decay_range (unrep : float -> Z) (dt : Z) :
  0 <= dt <= Lifetime ->
  (0 <=? @decay (go_portable unrep) dt)%float = true /\
  (@decay (go_portable unrep) dt <=? 1)%float = true.
Proof.
  intros Hdt.
  assert (Hall : forallb (fun d => (0 <=? @decay (go_portable unrep) d)%float
                                   && (@decay (go_portable unrep) d <=? 1)%float)
                   (seqZ 0 (Lifetime + 1)) = true)
    by (vm_compute; reflexivity).
  rewrite forallb_forall in Hall.
  apply andb_true_iff, Hall, list_elem_of_In, elem_of_seqZ.
  unfold Lifetime in *. lia.
Qed.

(** Both side conditions on the score are needed. Where the new transient
    has no [uint32] integer part the conversion is the platform's: with one
    that yields 0, one more transient point on 4294967295 returns 0. And a
    [math.Exp] above 1 makes the score read before the call exceed what a
    persistent increase returns. *)
Example increase_unrepresentable_drops :
  @int (go_portable (fun _ => 0))
    {| lastUnix := 0; transient := 4294967295%float; persistent := 0 |} 0
    = Some 4294967295 /\
  fst <$> @increase (go_portable (fun _ => 0)) 0 1 0
            {| lastUnix := 0; transient := 4294967295%float; persistent := 0 |}
    = Some 0.
Proof. vm_compute. split; reflexivity. Qed.

Example increase_growing_factor_drops :
  @int {| Exp := fun _ => 2%float; uint32_unrepresentable := fun _ => 0 |}
    {| lastUnix := 0; transient := 10%float; persistent := 0 |} 5
    = Some 20 /\
  fst <$> @increase {| Exp := fun _ => 2%float; uint32_unrepresentable := fun _ => 0 |}
            1 0 5 {| lastUnix := 0; transient := 10%float; persistent := 0 |}
    = Some 11.
Proof. vm_compute. split; reflexivity. Qed.

Lemma increase_never_lowers_score_witness :
  exists s',
    @increase (go_portable (fun _ => 0)) 100 50 1060
      {| lastUnix := 1000; transient := 8%float; persistent := 7 |}
    = Some (161, s') /\
    @int (go_portable (fun _ => 0))
      {| lastUnix := 1000; transient := 8%float; persistent := 7 |} 1060
    = Some 11 /\
    persistent s' = 107 /\ 11 <= 161.
Proof.
  destruct (increase_never_lowers_score (H := go_portable (fun _ => 0))
              {| lastUnix := 1000; transient := 8%float; persistent := 7 |}
              100 50 1060)
    as (r & s' & v & Hinc & Hv & _ & _ & Hpers & Hscore).
  - unfold Int.is_uint32, Int.MaxUint32. cbn. lia.
  - unfold Int.is_uint32, Int.MaxUint32. lia.
  - unfold Int.is_uint32, Int.MaxUint32. lia.
  - intros Hdt. now apply go_portable_decay_range.
  - assert (Hs' : s' = {| lastUnix := 1060; transient := 54%float; persistent := 107 |}).
    { vm_compute in Hinc. now injection Hinc as _ <-. }
    destruct Hpers as [Hp' _]; [unfold Int.MaxUint32; cbn; lia |].
    destruct (Hscore 54) as (Hr & Hle).
    + rewrite Hs'. vm_compute. reflexivity.
    + unfold Int.is_uint32, Int.MaxUint32. lia.
    + unfold Int.MaxUint32. cbn. lia.
    + exists s'. rewrite Hinc, Hv.
      assert (v = 11) by (vm_compute in Hv; now injection Hv as <-).
      subst v. cbn in Hr, Hp'. subst r.
      repeat split; [exact Hp' | exact Hle].
Defined.

End BanScoreMonotone.

(** ** Properties of the signature cache *)
Module SigCacheSpec.
Import SigCache.
Local Open Scope nat_scope.

Section Generic.
Context {Hash : Type} `{Countable Hash}.
Context {Signature : Type} `{EqDecision Signature}.
Context {PublicKey : Type} `{EqDecision PublicKey}.

Implicit Types (s : SigCache Hash Signature PublicKey).
Implicit Types (m : gmap Hash (sigCacheEntry Signature PublicKey)).

Lemma IsEqual_refl {A} `{EqDecision A} (a : A) : IsEqual a a = true.
Proof. unfold IsEqual. now apply bool_decide_eq_true. Qed.

Lemma IsEqual_neq {A} `{EqDecision A} (a b : A) : a <> b -> IsEqual a b = false.
Proof. unfold IsEqual. intros Hne. now apply bool_decide_eq_false. Qed.

(** With room for at least one entry, the added entry is what the digest
    maps to afterwards, whichever entry was evicted. *)
Lemma Add_lookup first s sigHash sig0 pubKey0 :
  (0 < maxEntries s)%N ->
  validSigs (Add first s sigHash sig0 pubKey0) !! sigHash =
    Some {| sig := sig0; pubKey := pubKey0 |}.
Proof.
  intros Hmax. unfold Add.
  destruct (N.leb_spec (maxEntries s) 0) as [Hz | _]; [lia |].
  cbn [validSigs]. apply lookup_insert_eq.
Qed.

Lemma Add_maxEntries first s sigHash sig0 pubKey0 :
  maxEntries (Add first s sigHash sig0 pubKey0) = maxEntries s.
Proof. unfold Add. destruct (maxEntries s <=? 0)%N; reflexivity. Qed.

Lemma Add_zero first s sigHash sig0 pubKey0 :
  maxEntries s = 0%N -> Add first s sigHash sig0 pubKey0 = s.
Proof. intros Hz. unfold Add. rewrite Hz. reflexivity. Qed.

Lemma size_insert_le m k e : size (<[k := e]> m) <= S (size m).
Proof. rewrite map_size_insert. destruct (m !! k); cbn; lia. Qed.

(** What the eviction loop does to a map that is over the maximum. *)
Lemma evict_one first m :
  range_first m first -> m <> ∅ ->
  exists k e, first = Some k /\ m !! k = Some e /\
              evict first m = delete k m /\
              S (size (evict first m)) = size m.
Proof.
  intros Hfirst Hne. destruct first as [k |]; cbn in Hfirst.
  - destruct Hfirst as [e He]. exists k, e. cbn [evict].
    repeat split; [exact He |].
    rewrite map_size_delete, He. cbn.
    assert (size m <> 0) by (apply map_size_non_empty_iff; exact Hne). lia.
  - contradiction.
Qed.

(** Every cache built by [NewSigCache n] and [Add] keeps its maximum and
    holds at most that many entries. *)
Lemma reachable_bounded n s :
  reachable n s ->
  maxEntries s = n /\ (N.of_nat (size (validSigs s)) <= n)%N.
Proof.
  induction 1 as [| s first sigHash sig0 pubKey0 Hs [IHmax IHsize] Hfirst].
  - cbn. rewrite map_size_empty. split; [reflexivity | lia].
  - rewrite Add_maxEntries. split; [exact IHmax |].
    unfold Add, over_max.
    destruct (N.leb_spec (maxEntries s) 0) as [Hz | Hnz]; [exact IHsize |].
    cbn [validSigs].
    destruct (N.ltb_spec (maxEntries s) (N.of_nat (size (validSigs s) + 1)))
      as [Hover | Hroom].
    + assert (Hne : validSigs s <> ∅).
      { apply map_size_non_empty_iff. lia. }
      destruct (evict_one first (validSigs s) Hfirst Hne)
        as (k & e & _ & _ & _ & Hsz).
      pose proof (size_insert_le (evict first (validSigs s)) sigHash
                    {| sig := sig0; pubKey := pubKey0 |}).
      lia.
    + pose proof (size_insert_le (validSigs s) sigHash
                    {| sig := sig0; pubKey := pubKey0 |}).
      lia.
Qed.

(** C5, as amended: in a cache whose capacity is not zero, right after
    [Add(d, s, k)] the call [Exists(d, s, k)] is true and [Exists(d, s', k)]
    is false for every other signature [s']; and in any cache, [Exists] is
    false for a signature different from the one stored under the digest. *)
Theorem Exists_after_Add first s sigHash sig0 pubKey0
    (Hmax : (0 < maxEntries s)%N) :
  Exists (Add first s sigHash sig0 pubKey0) sigHash sig0 pubKey0 = true /\
  (forall sig', sig' <> sig0 ->
     Exists (Add first s sigHash sig0 pubKey0) sigHash sig' pubKey0 = false) /\
  (forall s0 entry sig' pubKey',
     validSigs s0 !! sigHash = Some entry -> sig entry <> sig' ->
     Exists s0 sigHash sig' pubKey' = false).
Proof.
  repeat split.
  - unfold Exists. rewrite Add_lookup by exact Hmax. cbn.
    now rewrite !IsEqual_refl.
  - intros sig' Hne. unfold Exists. rewrite Add_lookup by exact Hmax. cbn.
    rewrite (IsEqual_neq sig0 sig') by congruence.
    apply andb_false_r.
  - intros s0 entry sig' pubKey' Hlook Hne. unfold Exists. rewrite Hlook.
    rewrite (IsEqual_neq (sig entry) sig') by exact Hne.
    apply andb_false_r.
Qed.

(** C6: a cache built with capacity [n] never holds more than [n]
    entries, before or after a further [Add]; an [Add] that would go over
    the capacity first evicts exactly one resident entry and then stores the
    new one; an [Add] on a cache of capacity zero changes nothing. *)
Theorem Add_bounded n s (Hreach : reachable n s) :
  (N.of_nat (size (validSigs s)) <= n)%N /\
  forall first sigHash sig0 pubKey0,
    range_first (validSigs s) first ->
    let s' := Add first s sigHash sig0 pubKey0 in
    let entry := {| sig := sig0; pubKey := pubKey0 |} in
    (N.of_nat (size (validSigs s')) <= n)%N /\
    (n = 0%N -> s' = s) /\
    (n <> 0%N -> (n < N.of_nat (size (validSigs s) + 1))%N ->
       exists k old,
         first = Some k /\ validSigs s !! k = Some old /\
         S (size (delete k (validSigs s))) = size (validSigs s) /\
         validSigs s' = <[sigHash := entry]> (delete k (validSigs s))) /\
    (n <> 0%N -> (N.of_nat (size (validSigs s) + 1) <= n)%N ->
       validSigs s' = <[sigHash := entry]> (validSigs s)).
Proof.
  destruct (reachable_bounded n s Hreach) as [Hmax Hsize].
  split; [exact Hsize |].
  intros first sigHash sig0 pubKey0 Hfirst s' entry.
  split.
  { apply (reachable_bounded n s').
    now apply reach_add. }
  split.
  { intros Hz. apply Add_zero. congruence. }
  subst s'. unfold Add, over_max. rewrite Hmax.
  split.
  - intros Hnz Hover.
    destruct (N.leb_spec n 0) as [Hz | _]; [lia |].
    destruct (N.ltb_spec n (N.of_nat (size (validSigs s) + 1))) as [_ | Hc];
      [| lia].
    assert (Hne : validSigs s <> ∅).
    { apply map_size_non_empty_iff. lia. }
    destruct (evict_one first (validSigs s) Hfirst Hne)
      as (k & old & Hk & Hold & Hev & Hsz).
    exists k, old. rewrite Hev in Hsz. cbn [validSigs]. rewrite Hev.
    repeat split; assumption.
  - intros Hnz Hroom.
    destruct (N.leb_spec n 0) as [Hz | _]; [lia |].
    destruct (N.ltb_spec n (N.of_nat (size (validSigs s) + 1))) as [Hc | _];
      [lia |].
    reflexivity.
Qed.

End Generic.
End SigCacheSpec.

(** *** Concrete caches *)
Module SigCacheExamples.
Import SigCache SigCacheData.
Local Open Scope nat_scope.

(** C5 as stated fails on a cache of capacity zero: [Add] stores nothing,
    so the [Exists] that follows is false. *)
Lemma Exists_after_Add_capacity_zero :
  Exists (Add None cache0 7%N (1, 2)%Z (3, 4)%Z) 7%N (1, 2)%Z (3, 4)%Z = false.
Proof. vm_compute. reflexivity. Qed.

Lemma Exists_after_Add_witness :
  Exists (Add None cache1 7%N (1, 2)%Z (3, 4)%Z) 7%N (1, 2)%Z (3, 4)%Z = true /\
  Exists (Add None cache1 7%N (1, 2)%Z (3, 4)%Z) 7%N (1, 5)%Z (3, 4)%Z = false.
Proof.
  assert (Hmax : (0 < maxEntries cache1)%N) by (cbn; lia).
  destruct (SigCacheSpec.Exists_after_Add None cache1 7%N (1, 2)%Z (3, 4)%Z Hmax)
    as (Hhit & Hmiss & _).
  split; [exact Hhit |]. apply Hmiss. discriminate.
Defined.

Lemma Add_bounded_witness :
  reachable 1 cache1_full /\
  size (validSigs cache1_full) = 1 /\
  size (validSigs (Add (Some 7%N) cache1_full 9%N (5, 6)%Z (3, 4)%Z)) <= 1 /\
  validSigs (Add (Some 7%N) cache1_full 9%N (5, 6)%Z (3, 4)%Z) !! 7%N = None.
Proof.
  assert (Hreach : reachable 1 cache1_full).
  { apply reach_add; [apply reach_new | reflexivity]. }
  assert (Hfirst : range_first (validSigs cache1_full) (Some 7%N)).
  { cbn. eexists. reflexivity. }
  destruct (SigCacheSpec.Add_bounded 1%N cache1_full Hreach) as [_ Hadd].
  destruct (Hadd (Some 7%N) 9%N (5, 6)%Z (3, 4)%Z Hfirst)
    as (Hsize & _ & Hover & _).
  split; [exact Hreach |]. split; [reflexivity |]. split; [lia |].
  destruct Hover as (k & old & Hk & _ & _ & Hmap);
    [lia | vm_compute; reflexivity |].
  rewrite Hmap. inversion Hk; subst k.
  rewrite lookup_insert_ne by discriminate. apply lookup_delete_eq.
Defined.

End SigCacheExamples.

(** ** Further properties of the score *)
Module BanScoreMore.
Import BanScore BanScoreSpec.

Lemma add32_add32_l a b c : Int.add32 (Int.add32 a b) c = Int.wrap32 (a + b + c).
Proof.
  unfold Int.add32, Int.wrap32. now rewrite Zplus_mod_idemp_l.
Qed.

Section Generic.
Context `{GoMath}.

(** X1: The index into the table of factors is guarded: [decayFactor] panics
    on every negative argument and on no other, and neither [int] nor
    [increase] panics, whatever the state and the time. *)
Theorem table_index_guarded :
  (forall t, t < 0 -> decayFactor t = None) /\
  (forall t, 0 <= t -> is_Some (decayFactor t)) /\
  (forall s t, is_Some (int s t)) /\
  (forall pd td t s, is_Some (increase pd td t s)).
Proof.
  split; [apply decayFactor_negative |].
  split; [| split; [apply int_total | apply increase_total]].
  intros t Ht. rewrite decayFactor_decay by exact Ht. eauto.
Qed.

Lemma replay_persistent (calls : history) (s0 : DynamicBanScore) :
  exists s, replay calls s0 = Some s /\
            Int.wrap32 (persistent s) =
              Int.wrap32 (persistent s0 + persistent_total calls).
Proof.
  revert s0. induction calls as [| [[pd td] t] rest IH]; intros s0; cbn [replay].
  - exists s0. split; [reflexivity |]. cbn. now rewrite Z.add_0_r.
  - destruct (increase_persistent pd td t s0) as (r & s1 & Hinc & Hp).
    rewrite Hinc. destruct (IH s1) as (s & Hs & Hsum).
    exists s. split; [exact Hs |]. rewrite Hsum, Hp.
    change (persistent_total ((pd, td, t) :: rest))
      with (pd + persistent_total rest).
    unfold Int.add32, Int.wrap32.
    rewrite Zplus_mod_idemp_l. f_equal. lia.
Qed.

(** A persistent part that is a [uint32] stays one. *)
Lemma replay_range (calls : history) (s0 s : DynamicBanScore) :
  Int.is_uint32 (persistent s0) -> replay calls s0 = Some s ->
  Int.is_uint32 (persistent s).
Proof.
  revert s0. induction calls as [| [[pd td] t] rest IH]; intros s0 H0 Hs;
    cbn [replay] in Hs.
  - injection Hs as <-. exact H0.
  - destruct (increase_persistent pd td t s0) as (r & s1 & Hinc & Hp).
    rewrite Hinc in Hs. apply (IH s1); [| exact Hs].
    rewrite Hp. apply wrap32_range.
Qed.

Lemma replay_zero_persistent (calls : history) :
  exists s, replay calls zero = Some s /\
            persistent s = Int.wrap32 (persistent_total calls).
Proof.
  destruct (replay_persistent calls zero) as (s & Hs & Hsum).
  exists s. split; [exact Hs |].
  assert (Hrange : Int.is_uint32 (persistent s)).
  { apply (replay_range calls zero); [| exact Hs].
    unfold Int.is_uint32, Int.MaxUint32. cbn. lia. }
  rewrite <- (wrap32_small _ Hrange), Hsum. reflexivity.
Qed.

(** X2: After any history of [increase] calls on a zero value the persistent
    part is the sum of the persistent deltas modulo 2^32, whatever the
    times and the transient deltas were. *)
Theorem persistent_is_sum (calls : history) :
  exists s, replay calls zero = Some s /\
            persistent s = Int.wrap32 (persistent_total calls).
Proof. apply replay_zero_persistent. Qed.

Lemma replay_no_transient (calls : history) (s0 s : DynamicBanScore) :
  Forall (fun c => c.1.2 = 0) calls ->
  replay calls s0 = Some s ->
  lastUnix s = lastUnix s0 /\ transient s = transient s0.
Proof.
  revert s0. induction calls as [| [[pd td] t] rest IH]; intros s0 Hall Hs;
    cbn [replay] in Hs.
  - injection Hs as <-. split; reflexivity.
  - inversion Hall as [| c l Hc Hrest]; subst. cbn in Hc. subst td.
    change (increase pd 0 t s0)
      with (Some (Int.add32 (Int.add32 (persistent s0) pd)
                    (to_uint32 (transient s0)),
                  {| lastUnix := lastUnix s0;
                     transient := transient s0;
                     persistent := Int.add32 (persistent s0) pd |})) in Hs.
    destruct (IH _ Hrest Hs) as [Hl Ht]. split; assumption.
Qed.

(** X3: A history of persistent increases only (every transient delta 0) on a
    zero value never starts the clock: [lastUnix] and the transient part
    stay 0, and the score read at any time whatever is the sum of the
    deltas modulo 2^32. *)
Theorem persistent_only_history (calls : history)
    (Hall : Forall (fun c => c.1.2 = 0) calls) :
  exists s,
    replay calls zero = Some s /\
    lastUnix s = 0 /\ transient s = 0%float /\
    forall t, int s t = Some (Int.wrap32 (persistent_total calls)).
Proof.
  destruct (replay_zero_persistent calls) as (s & Hs & Hsum).
  destruct (replay_no_transient calls zero s Hall Hs) as [Hl Ht].
  exists s. split; [exact Hs |]. split; [exact Hl |]. split; [exact Ht |].
  intros t. unfold int. rewrite Ht. cbn in Ht.
  change (0 <? 1)%float with true. cbn [orb]. now rewrite Hsum.
Qed.

(** X5: A transient increase is forgotten once its lifetime is over, and when
    the clock reads earlier than the increase: after [increase] with a
    transient delta at [t], the score read at a [t'] with [t' - t > Lifetime]
    or [t' - t < 0] is the persistent part alone; and the next transient
    increase after the lifetime stores its own delta and nothing of the old
    transient. *)
Theorem transient_expires (s : DynamicBanScore) (pd td t t' : Z)
    (Htd : 0 < td)
    (Hgone : Lifetime < Int.sub64 t' t \/ Int.sub64 t' t < 0) :
  exists r s',
    increase pd td t s = Some (r, s') /\
    int s' t' = Some (Int.add32 (persistent s) pd) /\
    (Lifetime < Int.sub64 t' t ->
     forall pd2 td2, 0 < td2 ->
       exists r2 s2,
         increase pd2 td2 t' s' = Some (r2, s2) /\
         transient s2 = (0 + F64.of_Z td2)%float /\
         lastUnix s2 = t').
Proof.
  assert (Hlast : exists r s',
            increase pd td t s = Some (r, s') /\ lastUnix s' = t /\
            persistent s' = Int.add32 (persistent s) pd).
  { unfold increase.
    destruct (Z.ltb_spec 0 td) as [_ | Hc]; [| lia].
    cbn [mbind option_bind].
    destruct (Lifetime <? _); cbn [mbind option_bind]; [eauto |].
    destruct (1 <? transient s)%float; cbn [andb]; [| cbn; eauto].
    destruct (Z.ltb_spec 0 (Int.sub64 t (lastUnix s))) as [Hpos | Hneg];
      [| cbn; eauto].
    rewrite decayFactor_decay by lia. cbn. eauto. }
  destruct Hlast as (r & s' & Hinc & Hl & Hp).
  exists r, s'. split; [exact Hinc |]. split.
  - unfold int. rewrite Hl, Hp.
    destruct (transient s' <? 1)%float; cbn [orb]; [reflexivity |].
    destruct (Z.ltb_spec (Int.sub64 t' t) 0) as [Hneg | Hpos];
      cbn [orb]; [reflexivity |].
    destruct (Z.ltb_spec Lifetime (Int.sub64 t' t)) as [Hold | Hyoung];
      [reflexivity | lia].
  - intros Hold pd2 td2 Htd2. unfold increase. rewrite Hl.
    destruct (Z.ltb_spec 0 td2) as [_ | Hc]; [| lia].
    destruct (Z.ltb_spec Lifetime (Int.sub64 t' t)) as [_ | Hc]; [| lia].
    cbn [mbind option_bind]. eexists _, _. split; [reflexivity |].
    split; reflexivity.
Qed.

(** X6: A persistent increase without a transient delta moves the score read
    at every time by the delta (modulo 2^32) and leaves the decay as it
    was. *)
Theorem persistent_increase_shifts (s : DynamicBanScore) (pd t t' : Z) :
  exists r s' v,
    increase pd 0 t s = Some (r, s') /\
    int s t' = Some v /\
    int s' t' = Some (Int.wrap32 (v + pd)).
Proof.
  eexists _, _. 
  destruct (int_total s t') as [v Hv]. exists v.
  split; [reflexivity |]. split; [exact Hv |].
  unfold int in *. cbn [lastUnix transient persistent].
  destruct (_ || _ || _).
  - injection Hv as <-. reflexivity.
  - destruct (decayFactor _) as [d |]; [| discriminate].
    cbn in *. injection Hv as <-. f_equal.
    rewrite add32_add32_l. unfold Int.add32, Int.wrap32.
    rewrite Zplus_mod_idemp_l. f_equal. lia.
Qed.

End Generic.

Lemma persistent_only_history_witness :
  exists s,
    @replay (go_portable (fun _ => 0)) [(100, 0, 5); (4294967295, 0, 9)] zero
      = Some s /\
    forall t, @int (go_portable (fun _ => 0)) s t = Some 99.
Proof.
  destruct (persistent_only_history (H := go_portable (fun _ => 0))
              [(100, 0, 5); (4294967295, 0, 9)])
    as (s & Hs & _ & _ & Hint).
  { repeat constructor. }
  exists s. split; [exact Hs | exact Hint].
Defined.

Lemma transient_expires_witness :
  exists r s',
    @increase (go_portable (fun _ => 0)) 10 50 1000 zero = Some (r, s') /\
    @int (go_portable (fun _ => 0)) s' 2801 = Some 10.
Proof.
  destruct (transient_expires (H := go_portable (fun _ => 0))
              zero 10 50 1000 2801)
    as (r & s' & Hinc & Hint & _).
  - lia.
  - left. vm_compute. reflexivity.
  - exists r, s'. split; [exact Hinc | exact Hint].
Defined.

End BanScoreMore.

(** ** The exported methods and the mutex *)
Module GuardedSpec.
Import BanScore BanScoreSpec Guarded.

Section Generic.
Context `{GoMath}.

(** X7: Called with the mutex free, [Int], [Increase] and [Reset] return, with
    the result of [int], [increase] and the zero state, and the mutex is
    free again: nothing between [Lock] and [Unlock] can panic. *)
Theorem methods_release_mutex (g : GuardedScore) (Hfree : held g = false) :
  (forall now, exists r,
     int (score g) now = Some r /\ Int now g = Returns r g) /\
  (forall pd td now, exists r s',
     increase pd td now (score g) = Some (r, s') /\
     Increase pd td now g = Returns r {| score := s'; held := false |}) /\
  Reset g = Returns tt {| score := zero; held := false |}.
Proof.
  destruct g as [s h]. cbn in Hfree. subst h.
  split; [| split].
  - intros now. destruct (int_total s now) as [r Hr].
    exists r. split; [exact Hr |].
    unfold Int. cbn. rewrite Hr. reflexivity.
  - intros pd td now.
    destruct (increase_total pd td now s) as [[r s'] Hr].
    exists r, s'. split; [exact Hr |].
    unfold Increase. cbn. rewrite Hr. reflexivity.
  - reflexivity.
Qed.

(** X8: [String] never returns. Called with the mutex free it takes [s.mtx]
    and then calls [Int], which waits for the mutex its caller holds and
    would release only after [Int] has returned; called with the mutex held
    it waits at its own [Lock]. [fmt.Sprintf] is never reached. *)
Theorem String_blocks {Str : Type} (Sprintf : Z -> float -> Z -> Z -> Str)
    (now : Z) (g : GuardedScore) :
  String Sprintf now g = Blocks.
Proof.
  unfold String, Lock. destruct (held g); reflexivity.
Qed.

End Generic.

Lemma methods_release_mutex_witness :
  @Int (go_portable (fun _ => 0)) 60
    {| score := {| lastUnix := 0; transient := 50%float; persistent := 100 |};
       held := false |}
  = Returns 125
      {| score := {| lastUnix := 0; transient := 50%float; persistent := 100 |};
         held := false |}.
Proof.
  destruct (methods_release_mutex (H := go_portable (fun _ => 0))
              {| score := {| lastUnix := 0; transient := 50%float;
                             persistent := 100 |};
                 held := false |} eq_refl) as (Hint & _ & _).
  destruct (Hint 60) as (r & Hr & Hret).
  rewrite Hret. vm_compute in Hr. injection Hr as <-. reflexivity.
Defined.

End GuardedSpec.

(** ** Further properties of the signature cache *)
Module SigCacheMore.
Import SigCache SigCacheRuns SigCacheSpec.
Local Open Scope nat_scope.

Section Generic.
Context {Hash : Type} `{Countable Hash}.
Context {Signature : Type} `{EqDecision Signature}.
Context {PublicKey : Type} `{EqDecision PublicKey}.

Implicit Types (s : SigCache Hash Signature PublicKey).
Implicit Types (m : gmap Hash (sigCacheEntry Signature PublicKey)).
Implicit Types (c : call Hash Signature PublicKey).

Lemma Exists_lookup s sigHash sig0 pubKey0 :
  Exists s sigHash sig0 pubKey0 = true <->
  validSigs s !! sigHash = Some {| sig := sig0; pubKey := pubKey0 |}.
Proof.
  unfold Exists, IsEqual.
  destruct (validSigs s !! sigHash) as [[sg pk] |]; cbn.
  - rewrite andb_true_iff, !bool_decide_eq_true. split.
    + intros [-> ->]. reflexivity.
    + intros [= -> ->]. split; reflexivity.
  - split; discriminate.
Qed.

(** The map after an [Add] on a cache with room for an entry. *)
Lemma Add_validSigs first s sigHash sig0 pubKey0 :
  (0 < maxEntries s)%N ->
  validSigs (Add first s sigHash sig0 pubKey0) =
    <[sigHash := {| sig := sig0; pubKey := pubKey0 |}]>
      (if over_max s then evict first (validSigs s) else validSigs s).
Proof.
  intros Hmax. unfold Add.
  destruct (N.leb_spec (maxEntries s) 0); [lia | reflexivity].
Qed.

Lemma over_max_full s :
  over_max s = true <-> (maxEntries s <= N.of_nat (size (validSigs s)))%N.
Proof.
  unfold over_max.
  destruct (N.ltb_spec (maxEntries s) (N.of_nat (size (validSigs s) + 1)));
    split; intros; try lia; try discriminate; reflexivity.
Qed.

(** An entry found after an [Add] is the one just stored or was there
    before. *)
Lemma Add_lookup_inv first s sigHash sig0 pubKey0 h e :
  validSigs (Add first s sigHash sig0 pubKey0) !! h = Some e ->
  (h = sigHash /\ e = {| sig := sig0; pubKey := pubKey0 |}) \/
  validSigs s !! h = Some e.
Proof.
  unfold Add.
  destruct (maxEntries s <=? 0)%N; [now right |].
  cbn [validSigs]. rewrite lookup_insert.
  destruct (decide (sigHash = h)) as [-> | Hne].
  - intros [= <-]. now left.
  - intros Hlook. right.
    destruct (over_max s); [| exact Hlook].
    destruct first as [k |]; cbn [evict] in Hlook; [| exact Hlook].
    rewrite lookup_delete in Hlook.
    destruct (decide (k = h)); [discriminate | exact Hlook].
Qed.

(** X10: [Add] touches at most two digests, the one it stores and the one it
    evicts: any other digest keeps its entry; below the maximum nothing is
    evicted; at the maximum the digest the loop meets first is gone, unless
    it is the one being stored. *)
Theorem Add_frame first s sigHash sig0 pubKey0 h
    (Hmax : (0 < maxEntries s)%N) (Hother : h <> sigHash) :
  let s' := Add first s sigHash sig0 pubKey0 in
  (first <> Some h -> validSigs s' !! h = validSigs s !! h) /\
  ((N.of_nat (size (validSigs s)) < maxEntries s)%N ->
     validSigs s' !! h = validSigs s !! h) /\
  ((maxEntries s <= N.of_nat (size (validSigs s)))%N -> first = Some h ->
     validSigs s' !! h = None).
Proof.
  intros s'. subst s'. rewrite Add_validSigs by exact Hmax.
  rewrite lookup_insert_ne by congruence.
  split; [| split].
  - intros Hfirst. destruct (over_max s); [| reflexivity].
    destruct first as [k |]; [| reflexivity]. cbn [evict].
    apply lookup_delete_ne. congruence.
  - intros Hroom.
    destruct (over_max s) eqn:Hover; [| reflexivity].
    apply over_max_full in Hover. lia.
  - intros Hfull ->.
    apply over_max_full in Hfull. rewrite Hfull. cbn [evict].
    apply lookup_delete_eq.
Qed.

(** X11: [Add] does not check whether the digest is already cached: on a full
    cache, storing a resident digest again still evicts, and when the
    evicted digest is another one the cache ends one entry smaller. *)
Theorem Add_resident_when_full s sigHash sig0 pubKey0 k old resident
    (Hmax : (0 < maxEntries s)%N)
    (Hfull : (maxEntries s <= N.of_nat (size (validSigs s)))%N)
    (Hres : validSigs s !! sigHash = Some resident)
    (Hk : validSigs s !! k = Some old)
    (Hne : k <> sigHash) :
  let s' := Add (Some k) s sigHash sig0 pubKey0 in
  validSigs s' !! k = None /\
  validSigs s' !! sigHash = Some {| sig := sig0; pubKey := pubKey0 |} /\
  S (size (validSigs s')) = size (validSigs s).
Proof.
  intros s'. subst s'. rewrite Add_validSigs by exact Hmax.
  apply over_max_full in Hfull. rewrite Hfull. cbn [evict].
  split; [| split].
  - rewrite lookup_insert_ne by congruence. apply lookup_delete_eq.
  - apply lookup_insert_eq.
  - rewrite map_size_insert_Some.
    + rewrite map_size_delete, Hk. cbn.
      assert (size (validSigs s) <> 0).
      { apply map_size_ne_0_lookup_2 with k. eauto. }
      lia.
    + rewrite lookup_delete_ne by exact Hne. eauto.
Qed.

(** X12: A digest stored again replaces its entry: the pair that was cached
    under it is no longer found when it differs from the new one, and no
    entry is added. *)
Theorem Add_overwrites first s sigHash sig0 pubKey0 old
    (Hmax : (0 < maxEntries s)%N)
    (Hold : validSigs s !! sigHash = Some old)
    (Hdiff : sig old <> sig0 \/ pubKey old <> pubKey0) :
  let s' := Add first s sigHash sig0 pubKey0 in
  Exists s sigHash (sig old) (pubKey old) = true /\
  Exists s' sigHash (sig old) (pubKey old) = false /\
  Exists s' sigHash sig0 pubKey0 = true /\
  size (validSigs s') <= size (validSigs s).
Proof.
  intros s'.
  assert (Hnew : validSigs s' !! sigHash =
                   Some {| sig := sig0; pubKey := pubKey0 |}).
  { apply Add_lookup. exact Hmax. }
  split; [| split; [| split]].
  - apply Exists_lookup. rewrite Hold. now destruct old.
  - destruct (Exists s' sigHash (sig old) (pubKey old)) eqn:Hex;
      [| reflexivity].
    apply Exists_lookup in Hex. rewrite Hnew in Hex.
    injection Hex as Hs Hp. destruct Hdiff; congruence.
  - apply Exists_lookup. exact Hnew.
  - subst s'. rewrite Add_validSigs by exact Hmax.
    destruct (over_max s) eqn:Hover.
    + destruct first as [k |]; cbn [evict].
      * destruct (decide (k = sigHash)) as [-> | Hne].
        -- rewrite insert_delete_eq.
           rewrite map_size_insert_Some by eauto. lia.
        -- rewrite map_size_insert_Some
             by (rewrite lookup_delete_ne by exact Hne; eauto).
           rewrite map_size_delete. destruct (validSigs s !! k); cbn; lia.
      * rewrite map_size_insert_Some by eauto. lia.
    + rewrite map_size_insert_Some by eauto. lia.
Qed.

Lemma run_cons c calls s : run (c :: calls) s = run calls (Add_call s c).
Proof. reflexivity. Qed.

Lemma run_maxEntries calls s : maxEntries (run calls s) = maxEntries s.
Proof.
  revert s. induction calls as [| c calls IH]; intros s; [reflexivity |].
  rewrite run_cons, IH. apply Add_maxEntries.
Qed.

Lemma run_lookup_inv calls s h e :
  validSigs (run calls s) !! h = Some e ->
  validSigs s !! h = Some e \/
  exists c, c ∈ calls /\ call_sigHash c = h /\
            e = {| sig := call_sig c; pubKey := call_pubKey c |}.
Proof.
  revert s. induction calls as [| c calls IH]; intros s Hlook.
  - now left.
  - rewrite run_cons in Hlook. destruct (IH _ Hlook) as [Hprev | Hlater].
    + destruct (Add_lookup_inv _ _ _ _ _ _ _ Hprev) as [[-> ->] | Hs].
      * right. exists c. split; [apply list_elem_of_here | split; reflexivity].
      * now left.
    + right. destruct Hlater as (c' & Hin & Hh & He).
      exists c'. split; [now apply list_elem_of_further | split; assumption].
Qed.

(** X13: The cache reports nothing it was not given: whatever [Add] calls were
    made on a new cache, and whatever was evicted, [Exists] answers true
    only for a digest, signature and public key that were the arguments of
    one of the calls. *)
Theorem Exists_only_added (n : N) calls sigHash sig0 pubKey0
    (Hex : Exists (run calls (NewSigCache n)) sigHash sig0 pubKey0 = true) :
  exists c, c ∈ calls /\ call_sigHash c = sigHash /\
            call_sig c = sig0 /\ call_pubKey c = pubKey0.
Proof.
  apply Exists_lookup in Hex.
  destruct (run_lookup_inv _ _ _ _ Hex) as [Hnew | (c & Hin & Hh & He)].
  - cbn in Hnew. rewrite lookup_empty in Hnew. discriminate.
  - exists c. injection He as -> ->. repeat split; assumption.
Qed.

(** Calls with fresh, distinct digests that fit under the maximum evict
    nothing. *)
Lemma run_fill calls s :
  NoDup (call_sigHash <$> calls) ->
  (forall c, c ∈ calls -> validSigs s !! call_sigHash c = None) ->
  (N.of_nat (size (validSigs s) + length calls) <= maxEntries s)%N ->
  size (validSigs (run calls s)) = size (validSigs s) + length calls /\
  (forall h e, validSigs s !! h = Some e ->
               validSigs (run calls s) !! h = Some e) /\
  (forall c, c ∈ calls ->
     validSigs (run calls s) !! call_sigHash c =
       Some {| sig := call_sig c; pubKey := call_pubKey c |}).
Proof.
  revert s. induction calls as [| c calls IH]; intros s Hnd Hfresh Hfit.
  - cbn. split; [lia |]. split; [auto |].
    intros c Hin. inversion Hin.
  - rewrite fmap_cons in Hnd. apply NoDup_cons in Hnd as [Hc Hnd].
    cbn [length] in Hfit.
    assert (Hmax : (0 < maxEntries s)%N) by lia.
    assert (Hroom : over_max s = false).
    { destruct (over_max s) eqn:Hover; [| reflexivity].
      apply over_max_full in Hover. lia. }
    assert (Hmap : validSigs (Add_call s c) =
                     <[call_sigHash c :=
                         {| sig := call_sig c; pubKey := call_pubKey c |}]>
                       (validSigs s)).
    { unfold Add_call. rewrite Add_validSigs by exact Hmax.
      now rewrite Hroom. }
    assert (Hcnone : validSigs s !! call_sigHash c = None).
    { apply Hfresh. apply list_elem_of_here. }
    assert (Hsize : size (validSigs (Add_call s c)) = S (size (validSigs s))).
    { rewrite Hmap. now apply map_size_insert_None. }
    destruct (IH (Add_call s c)) as (IHsize & IHold & IHnew).
    + exact Hnd.
    + intros c' Hin. rewrite Hmap.
      rewrite lookup_insert_ne.
      * apply Hfresh. now apply list_elem_of_further.
      * intros Heq. apply Hc. rewrite Heq.
        apply list_elem_of_fmap. exists c'. split; [reflexivity | exact Hin].
    + unfold Add_call at 2. rewrite Add_maxEntries. rewrite Hsize. lia.
    + rewrite run_cons. split; [rewrite IHsize, Hsize; cbn [length]; lia |].
      split.
      * intros h e Hlook. apply IHold. rewrite Hmap.
        rewrite lookup_insert_ne; [exact Hlook |].
        intros Heq. rewrite <- Heq, Hcnone in Hlook. discriminate.
      * intros c' Hin. apply elem_of_cons in Hin as [-> | Hin].
        -- apply IHold. rewrite Hmap. apply lookup_insert_eq.
        -- now apply IHnew.
Qed.

(** X14: Nothing is evicted before the cache is full: after at most [n] calls
    with distinct digests on a new cache of capacity [n], every one of them
    is found, whatever order the map would be ranged in. *)
Theorem no_eviction_until_full (n : N) calls
    (Hnd : NoDup (call_sigHash <$> calls))
    (Hfit : (N.of_nat (length calls) <= n)%N) :
  size (validSigs (run calls (NewSigCache n))) = length calls /\
  forall c, c ∈ calls ->
    Exists (run calls (NewSigCache n))
      (call_sigHash c) (call_sig c) (call_pubKey c) = true.
Proof.
  destruct (run_fill calls (NewSigCache n) Hnd) as (Hsize & _ & Hnew).
  - intros c _. apply lookup_empty.
  - cbn. rewrite map_size_empty. cbn. exact Hfit.
  - split.
    + rewrite Hsize. cbn. rewrite map_size_empty. reflexivity.
    + intros c Hin. apply Exists_lookup. now apply Hnew.
Qed.

End Generic.
End SigCacheMore.

Module SigCacheMoreExamples.
Import SigCache SigCacheRuns SigCacheRunsData.
Local Open Scope nat_scope.

Lemma Add_frame_witness :
  validSigs (Add (Some 7%N) cache2_full 11%N (8, 8)%Z (3, 4)%Z) !! 9%N =
    validSigs cache2_full !! 9%N /\
  validSigs (Add (Some 9%N) cache2_full 11%N (8, 8)%Z (3, 4)%Z) !! 9%N = None.
Proof.
  assert (Hmax : (0 < maxEntries cache2_full)%N) by (vm_compute; reflexivity).
  assert (Hother : 9%N <> 11%N) by discriminate.
  split.
  - destruct (SigCacheMore.Add_frame (Some 7%N) cache2_full 11%N
                (8, 8)%Z (3, 4)%Z 9%N Hmax Hother) as (Hkeep & _ & _).
    apply Hkeep. discriminate.
  - destruct (SigCacheMore.Add_frame (Some 9%N) cache2_full 11%N
                (8, 8)%Z (3, 4)%Z 9%N Hmax Hother) as (_ & _ & Hgone).
    apply Hgone; [vm_compute; discriminate | reflexivity].
Defined.

Lemma Add_resident_when_full_witness :
  size (validSigs cache2_full) = 2 /\
  S (size (validSigs (Add (Some 9%N) cache2_full 7%N (1, 2)%Z (3, 4)%Z))) =
    size (validSigs cache2_full) /\
  validSigs (Add (Some 9%N) cache2_full 7%N (1, 2)%Z (3, 4)%Z) !! 9%N = None.
Proof.
  split; [reflexivity |].
  destruct (SigCacheMore.Add_resident_when_full cache2_full 7%N
              (1, 2)%Z (3, 4)%Z 9%N
              {| sig := (5, 6)%Z; pubKey := (3, 4)%Z |}
              {| sig := (1, 2)%Z; pubKey := (3, 4)%Z |})
    as (Hgone & _ & Hsize).
  - vm_compute; reflexivity.
  - vm_compute; discriminate.
  - reflexivity.
  - reflexivity.
  - discriminate.
  - split; [exact Hsize | exact Hgone].
Defined.

Lemma Add_overwrites_witness :
  Exists cache2_full 7%N (1, 2)%Z (3, 4)%Z = true /\
  Exists (Add None cache2_full 7%N (1, 2)%Z (9, 9)%Z) 7%N (1, 2)%Z (3, 4)%Z
    = false.
Proof.
  destruct (SigCacheMore.Add_overwrites None cache2_full 7%N
              (1, 2)%Z (9, 9)%Z
              {| sig := (1, 2)%Z; pubKey := (3, 4)%Z |})
    as (Hbefore & Hafter & _ & _).
  - vm_compute; reflexivity.
  - reflexivity.
  - right. discriminate.
  - split; [exact Hbefore | exact Hafter].
Defined.

Lemma Exists_only_added_witness :
  exists c, c ∈ [call7; call9] /\ call_sigHash c = 9%N /\
            call_sig c = (5, 6)%Z /\ call_pubKey c = (3, 4)%Z.
Proof.
  apply (SigCacheMore.Exists_only_added 2%N [call7; call9] 9%N
           (5, 6)%Z (3, 4)%Z).
  vm_compute. reflexivity.
Defined.

Lemma no_eviction_until_full_witness :
  size (validSigs cache2_full) = 2 /\
  Exists cache2_full 7%N (1, 2)%Z (3, 4)%Z = true.
Proof.
  destruct (SigCacheMore.no_eviction_until_full 2%N [call7; call9])
    as (Hsize & Hall).
  - cbn. apply NoDup_cons. split.
    + rewrite list_elem_of_singleton. discriminate.
    + apply NoDup_singleton.
  - vm_compute. discriminate.
  - split; [exact Hsize |].
    apply (Hall call7). apply list_elem_of_here.
Defined.

End SigCacheMoreExamples.
